(** * Request queuing and resilient dispatch of the storyboard editor

    A shallow embedding of [services/geminiService.ts]: the bounded
    [RequestQueue], [fetchWithRetry], [normalizeBaseUrl], [getConfig], the
    routing decision of [geminiRequest] and the response decoders of the four
    public operations, followed by the properties the specification states
    about them. *)

From Stdlib Require Import Ascii String ZArith NArith Bool List Lia Permutation.
Import ListNotations.

(** ** JavaScript strings

    A JavaScript string is a sequence of UTF-16 code units.  Literals of the
    source are ASCII, written [js "..."]. *)

Definition codeunit := N.
Definition jsstring := list codeunit.

Definition js (s : string) : jsstring :=
  List.map N_of_ascii (list_ascii_of_string s).

Fixpoint jsstring_eqb (a b : jsstring) : bool :=
  match a, b with
  | [], [] => true
  | x :: a', y :: b' => (x =? y)%N && jsstring_eqb a' b'
  | _, _ => false
  end.

Definition isEmpty (s : jsstring) : bool :=
  match s with [] => true | _ => false end.

(** [String.prototype.startsWith]. *)
Fixpoint startsWith (p s : jsstring) : bool :=
  match p, s with
  | [], _ => true
  | _ :: _, [] => false
  | a :: p', b :: s' => (a =? b)%N && startsWith p' s'
  end.

(** [String.prototype.includes]: some suffix of [s] starts with [p]. *)
Fixpoint includes (p s : jsstring) : bool :=
  startsWith p s ||
  match s with
  | [] => false
  | _ :: s' => includes p s'
  end.

(** The code points ECMAScript calls WhiteSpace or LineTerminator: TAB, LF,
    VT, FF, CR, SP, NBSP, U+1680, U+2000..U+200A, LS, PS, U+202F, U+205F,
    U+3000 and the byte order mark. *)
Definition isWhiteSpace (c : codeunit) : bool :=
  ((c =? 9) || (c =? 10) || (c =? 11) || (c =? 12) || (c =? 13) ||
   (c =? 32) || (c =? 160) || (c =? 5760) ||
   ((8192 <=? c) && (c <=? 8202)) ||
   (c =? 8232) || (c =? 8233) || (c =? 8239) || (c =? 8287) ||
   (c =? 12288) || (c =? 65279))%N.

Fixpoint dropWhile (p : codeunit -> bool) (s : jsstring) : jsstring :=
  match s with
  | [] => []
  | c :: r => if p c then dropWhile p r else s
  end.

Fixpoint dropWhileEnd (p : codeunit -> bool) (s : jsstring) : jsstring :=
  match s with
  | [] => []
  | c :: r =>
      match dropWhileEnd p r with
      | [] => if p c then [] else [c]
      | r' => c :: r'
      end
  end.

(** [String.prototype.trim]. *)
Definition trim (s : jsstring) : jsstring :=
  dropWhileEnd isWhiteSpace (dropWhile isWhiteSpace s).

Definition slash : codeunit := 47%N.

Definition isSlash (c : codeunit) : bool := (c =? slash)%N.

(** [s.replace(/\/+$/, "")].  The pattern is not global, so the leftmost
    match is replaced: the start positions are tried from left to right, and
    the pattern matches at one exactly when what is left of the string is a
    non-empty run of slashes. *)
Fixpoint replaceTrailingSlashes (s : jsstring) : jsstring :=
  match s with
  | [] => []
  | c :: r => if forallb isSlash s then [] else c :: replaceTrailingSlashes r
  end.

(** A code unit matches an ASCII letter of a pattern with the [i] flag when
    it is that letter in lower or upper case (a code unit above 127 is never
    folded onto an ASCII one). *)
Definition matchesLetter (lower c : codeunit) : bool :=
  ((c =? lower) || (c =? lower - 32))%N.

(** [/^https?:\/\//i.test(s)]. *)
Definition hasHttpScheme (s : jsstring) : bool :=
  match s with
  | h :: t1 :: t2 :: p :: rest =>
      matchesLetter 104%N h && matchesLetter 116%N t1 &&
      matchesLetter 116%N t2 && matchesLetter 112%N p &&
      (startsWith (js "://") rest ||
       match rest with
       | s' :: rest' => matchesLetter 115%N s' && startsWith (js "://") rest'
       | [] => false
       end)
  | _ => false
  end.

Definition defaultOrigin : jsstring :=
  js "https://generativelanguage.googleapis.com".

Definition normalizeBaseUrl (host : jsstring) : jsstring :=
  let url := replaceTrailingSlashes (trim host) in
  if isEmpty url then defaultOrigin
  else if startsWith (js "/") url then url
  else if negb (hasHttpScheme url) then js "https://" ++ url
  else url.

(** ** JavaScript values, exceptions and property access

    The dispatcher handles its payloads and the decoded responses as [any].
    Numbers are kept as integers: the code only tests them for truthiness. *)

#[warnings="-register-all"]
Inductive JsVal : Type :=
| JUndefined
| JNull
| JBool (b : bool)
| JNum (n : Z)
| JStr (s : jsstring)
| JArr (elems : list JsVal)
| JObj (fields : list (jsstring * JsVal)).

Inductive JsError : Type :=
| TypeError
| SyntaxError
| NetworkError
| InvalidCharacterError.

(** The outcome of an expression or of an awaited promise: a value, or a
    thrown exception (a rejection). *)
Inductive Outcome (A : Type) : Type :=
| Ok (a : A)
| Throw (e : JsError).

Arguments Ok {A} a.
Arguments Throw {A} e.

Definition bind {A B : Type} (m : Outcome A) (k : A -> Outcome B) : Outcome B :=
  match m with
  | Ok a => k a
  | Throw e => Throw e
  end.

Notation "x <- m ;; k" := (bind m (fun x => k))
  (at level 61, m at next level, right associativity).

(** [try { body } catch (e) { handler }]. *)
Definition tryCatch {A : Type} (body : Outcome A) (handler : JsError -> Outcome A)
  : Outcome A :=
  match body with
  | Ok a => Ok a
  | Throw e => handler e
  end.

Definition isNullish (v : JsVal) : bool :=
  match v with
  | JUndefined | JNull => true
  | _ => false
  end.

(** ToBoolean. *)
Definition truthy (v : JsVal) : bool :=
  match v with
  | JUndefined | JNull => false
  | JBool b => b
  | JNum n => negb (n =? 0)%Z
  | JStr s => negb (isEmpty s)
  | JArr _ | JObj _ => true
  end.

(** [a || b] on values. *)
Definition orElse (a b : JsVal) : JsVal := if truthy a then a else b.

Fixpoint lookup (k : jsstring) (fields : list (jsstring * JsVal)) : option JsVal :=
  match fields with
  | [] => None
  | (k', v) :: rest => if jsstring_eqb k k' then Some v else lookup k rest
  end.

(** [v.k] for the property names the service reads ([candidates],
    [content], [parts], [text], [inlineData], [data], [generationConfig],
    [imageConfig]): none of them is a built-in property of an array, a
    string, a number or a boolean, so only objects can hold them.  Reading a
    property of [null] or [undefined] throws. *)
Definition getProp (v : JsVal) (k : jsstring) : Outcome JsVal :=
  match v with
  | JUndefined | JNull => Throw TypeError
  | JObj fields =>
      match lookup k fields with
      | Some x => Ok x
      | None => Ok JUndefined
      end
  | _ => Ok JUndefined
  end.

(** [v?.k]: [undefined] on a nullish [v], and [v.k] otherwise, which then
    cannot throw. *)
Definition optProp (v : JsVal) (k : jsstring) : JsVal :=
  match v with
  | JObj fields =>
      match lookup k fields with
      | Some x => x
      | None => JUndefined
      end
  | _ => JUndefined
  end.

(** [v?.[0]]. *)
Definition optElem0 (v : JsVal) : JsVal :=
  match v with
  | JArr (x :: _) => x
  | JStr (c :: _) => JStr [c]
  | JObj fields =>
      match lookup (js "0") fields with
      | Some x => x
      | None => JUndefined
      end
  | _ => JUndefined
  end.

Definition isHighSurrogate (c : codeunit) : bool :=
  ((55296 <=? c) && (c <=? 56319))%N.

Definition isLowSurrogate (c : codeunit) : bool :=
  ((56320 <=? c) && (c <=? 57343))%N.

(** The string iterator yields one string per code point. *)
Fixpoint codePoints (s : jsstring) : list jsstring :=
  match s with
  | [] => []
  | a :: t =>
      match t with
      | b :: r =>
          if isHighSurrogate a && isLowSurrogate b
          then [a; b] :: codePoints r
          else [a] :: codePoints t
      | [] => [[a]]
      end
  end.

(** What [for (const x of v)] runs over: arrays and strings are iterable,
    the other values of a decoded response are not. *)
Definition iterate (v : JsVal) : Outcome (list JsVal) :=
  match v with
  | JArr elems => Ok elems
  | JStr s => Ok (List.map JStr (codePoints s))
  | _ => Throw TypeError
  end.

Local Open Scope Z_scope.

(** ** The bounded task queue

    A task is the closure handed to [add]; the model names it by a number.
    The event loop runs one handler at a time, so the queue changes in two
    kinds of atomic steps: a caller runs [add], or the task awaited by a
    suspended [process] settles and that [process] resumes in its [finally]
    block.  [awaiting] lists the suspended activations of [process] by the
    task each one awaits.  [process] updates the counter and the queue
    before it calls the task, so an [add] made by a task while it starts
    finds the queue as an [add] made right after the step would. *)

Definition Task := nat.

Record RequestQueue : Type := mkQueue {
  queue : list Task;
  activeCount : Z;
  maxConcurrency : Z;
  awaiting : list Task
}.

(** [new RequestQueue(maxConcurrency)]. *)
Definition newRequestQueue (n : Z) : RequestQueue :=
  {| queue := []; activeCount := 0; maxConcurrency := n; awaiting := [] |}.

(** What an observer of the tasks sees: a task is called, or the [await] on
    it returns. *)
Inductive Obs : Type :=
| Started (t : Task)
| Finished (t : Task).

(** [process()] up to its [await]: it returns at once when the bound is
    reached or nothing is pending, and otherwise counts one more active
    task, shifts the head of the queue and calls it. *)
Definition process (q : RequestQueue) : RequestQueue * list Obs :=
  if (activeCount q >=? maxConcurrency q) || (length (queue q) =? 0)%nat
  then (q, [])
  else
    match queue q with
    | [] => (q, [])
    | task :: rest =>
        ({| queue := rest;
            activeCount := activeCount q + 1;
            maxConcurrency := maxConcurrency q;
            awaiting := awaiting q ++ [task] |},
         [Started task])
    end.

(** [this.queue.push(...)] of [add]. *)
Definition push (task : Task) (q : RequestQueue) : RequestQueue :=
  {| queue := queue q ++ [task];
     activeCount := activeCount q;
     maxConcurrency := maxConcurrency q;
     awaiting := awaiting q |}.

(** [add(task)]: push, then [this.process()]. *)
Definition add (task : Task) (q : RequestQueue) : RequestQueue * list Obs :=
  process (push task q).

Fixpoint removeFirst (t : Task) (l : list Task) : list Task :=
  match l with
  | [] => []
  | x :: r => if (x =? t)%nat then r else x :: removeFirst t r
  end.

(** [this.activeCount--] of the [finally] block, in the activation that
    awaited [task]. *)
Definition release (task : Task) (q : RequestQueue) : RequestQueue :=
  {| queue := queue q;
     activeCount := activeCount q - 1;
     maxConcurrency := maxConcurrency q;
     awaiting := removeFirst task (awaiting q) |}.

(** The [finally] block: decrement, then [this.process()].  The wrapper
    that [add] queued catches whatever the task throws, so the block runs
    the same way after a success and after a failure. *)
Definition settle (task : Task) (q : RequestQueue) : RequestQueue * list Obs :=
  let (q', obs) := process (release task q) in
  (q', Finished task :: obs).

Inductive Event : Type :=
| Add (t : Task)
| Settle (t : Task).

Definition memTask (t : Task) (l : list Task) : bool :=
  existsb (fun x => (x =? t)%nat) l.

(** One step of the system; a task can settle only while it is awaited. *)
Definition step (q : RequestQueue) (e : Event) : option (RequestQueue * list Obs) :=
  match e with
  | Add t => Some (add t q)
  | Settle t => if memTask t (awaiting q) then Some (settle t q) else None
  end.

Fixpoint run (q : RequestQueue) (evs : list Event)
  : option (RequestQueue * list Obs) :=
  match evs with
  | [] => Some (q, [])
  | e :: rest =>
      match step q e with
      | None => None
      | Some (q', o) =>
          match run q' rest with
          | None => None
          | Some (q'', o') => Some (q'', o ++ o')
          end
      end
  end.

Definition imageQueue : RequestQueue := newRequestQueue 1.
Definition textQueue : RequestQueue := newRequestQueue 10.

(** The tasks submitted by a sequence of events, in submission order. *)
Fixpoint submitted (evs : list Event) : list Task :=
  match evs with
  | [] => []
  | Add t :: rest => t :: submitted rest
  | Settle _ :: rest => submitted rest
  end.

(** The tasks called so far, in the order of their calls. *)
Fixpoint started (obs : list Obs) : list Task :=
  match obs with
  | [] => []
  | Started t :: rest => t :: started rest
  | Finished _ :: rest => started rest
  end.

(** A log is serial from [cur] (the task running at its start, if any) when
    a task starts only while none runs and only the running one finishes. *)
Fixpoint serial (cur : option Task) (obs : list Obs) : bool :=
  match obs with
  | [] => true
  | Started t :: rest =>
      match cur with
      | None => serial (Some t) rest
      | Some _ => false
      end
  | Finished t :: rest =>
      match cur with
      | Some u => (u =? t)%nat && serial None rest
      | None => false
      end
  end.

(** ** The backoff fetcher

    [fetch] is the environment's: [net k] is what the [k]-th call of one
    invocation answers, a response or a network failure (a rejected
    promise).  A run records what came back, the delays slept through and
    the number of requests sent. *)

Record Response : Type := mkResponse {
  status : Z;
  bodyText : jsstring
}.

(** [response.ok]. *)
Definition ok (r : Response) : bool := (200 <=? status r) && (status r <=? 299).

Record FetchRun : Type := mkFetchRun {
  result : Outcome Response;
  delays : list Z;
  calls : nat
}.

(** [response.status === 429 || (response.status >= 500 && response.status <= 599)]. *)
Definition retryable (r : Response) : bool :=
  (status r =? 429) || ((status r >=? 500) && (status r <=? 599)).

(** The [while (attempt <= maxRetries)] loop and the [fetch] after it; each
    turn of the loop spends one unit of [fuel]. *)
Fixpoint retryLoop (fuel : nat) (net : nat -> Outcome Response)
    (maxRetries attempt : Z) (sent : nat) (slept : list Z) : option FetchRun :=
  match fuel with
  | O => None
  | S fuel' =>
      if attempt <=? maxRetries then
        match net sent with
        | Throw e =>
            Some {| result := Throw e; delays := slept; calls := S sent |}
        | Ok response =>
            if retryable response then
              if attempt =? maxRetries
              then Some {| result := Ok response; delays := slept; calls := S sent |}
              else
                let delay := 2 ^ attempt * 2000 in
                retryLoop fuel' net maxRetries (attempt + 1) (S sent) (slept ++ [delay])
            else Some {| result := Ok response; delays := slept; calls := S sent |}
        end
      else Some {| result := net sent; delays := slept; calls := S sent |}
  end.

(** [fetchWithRetry(url, options, maxRetries)]: the loop starts at attempt 0
    and turns at most [maxRetries + 2] times. *)
Definition fetchWithRetry (net : nat -> Outcome Response) (maxRetries : Z)
  : option FetchRun :=
  retryLoop (Z.to_nat (maxRetries + 1) + 1) net maxRetries 0 0%nat [].

(** ** Routing of a dispatch *)

Inductive Lane : Type :=
| ImageLane
| TextLane.

Definition laneQueue (l : Lane) : RequestQueue :=
  match l with
  | ImageLane => imageQueue
  | TextLane => textQueue
  end.

(** [model.includes('image') || payload.generationConfig?.imageConfig]. *)
Definition isImageTask (model : jsstring) (payload : JsVal) : Outcome JsVal :=
  if includes (js "image") model then Ok (JBool true)
  else
    gc <- getProp payload (js "generationConfig") ;;
    Ok (optProp gc (js "imageConfig")).

(** [const queue = isImageTask ? imageQueue : textQueue]. *)
Definition route (model : jsstring) (payload : JsVal) : Outcome Lane :=
  v <- isImageTask model payload ;;
  Ok (if truthy v then ImageLane else TextLane).

(** The payloads the five operations of the service build: [contents], and
    for [generateStoryboardFrame] and [refineImageClarity] a
    [generationConfig] holding an [imageConfig] object. *)
Record ImageConfig : Type := mkImageConfig {
  aspectRatio : option jsstring;
  imageSize : option jsstring
}.

Record GenerationConfig : Type := mkGenerationConfig {
  imageConfig : option ImageConfig
}.

Record Payload : Type := mkPayload {
  contents : JsVal;
  generationConfig : option GenerationConfig
}.

Definition optField {A : Type} (k : string) (f : A -> JsVal) (o : option A)
  : list (jsstring * JsVal) :=
  match o with
  | Some a => [(js k, f a)]
  | None => []
  end.

Definition imageConfigValue (c : ImageConfig) : JsVal :=
  JObj (optField "aspectRatio" JStr (aspectRatio c) ++
        optField "imageSize" JStr (imageSize c)).

Definition generationConfigValue (g : GenerationConfig) : JsVal :=
  JObj (optField "imageConfig" imageConfigValue (imageConfig g)).

Definition payloadValue (p : Payload) : JsVal :=
  JObj ((js "contents", contents p) ::
        optField "generationConfig" generationConfigValue (generationConfig p)).

(** The payload carries an image-generation configuration block. *)
Definition hasImageConfig (p : Payload) : bool :=
  match generationConfig p with
  | Some g =>
      match imageConfig g with
      | Some _ => true
      | None => false
      end
  | None => false
  end.

(** ** Configuration and response decoding

    [JSON.parse], [atob] and [URL.createObjectURL] belong to the platform;
    the service is read over any behaviour of theirs. *)

Definition builtinConfig : JsVal :=
  JObj [(js "apiHost", JStr (js ""));
        (js "apiKey", JStr (js ""));
        (js "textModel", JStr (js "gemini-3-flash-preview"));
        (js "imageModel", JStr (js "gemini-3-pro-image-preview"))].

Section Platform.

Variable JSON_parse : jsstring -> Outcome JsVal.
Variable base64ToBlobUrl : JsVal -> Outcome jsstring.

(** [getConfig()]; [saved] is what [localStorage.getItem('proxy_config')]
    returned, [None] for [null]. *)
Definition getConfig (saved : option jsstring) : Outcome JsVal :=
  let builtin := Ok builtinConfig in
  match saved with
  | Some s =>
      if truthy (JStr s)
      then tryCatch (JSON_parse s) (fun _ => builtin)
      else builtin
  | None => builtin
  end.

(** [data.candidates?.[0]?.content?.parts || []]. *)
Definition candidateParts (data : JsVal) : Outcome JsVal :=
  cs <- getProp data (js "candidates") ;;
  Ok (orElse (optProp (optProp (optElem0 cs) (js "content")) (js "parts"))
             (JArr [])).

(** The body of [for (const part of parts)]: the first part whose
    [inlineData?.data] is truthy ends the loop. *)
Fixpoint scanParts (parts : list JsVal) : Outcome JsVal :=
  match parts with
  | [] => Ok JUndefined
  | part :: rest =>
      i <- getProp part (js "inlineData") ;;
      let b64 := optProp i (js "data") in
      if truthy b64
      then u <- base64ToBlobUrl b64 ;; Ok (JStr u)
      else scanParts rest
  end.

(** What the three image operations do with the awaited result of
    [geminiRequest]. *)
Definition imageFromResponse (response : Outcome JsVal) : Outcome JsVal :=
  data <- response ;;
  parts <- candidateParts data ;;
  l <- iterate parts ;;
  scanParts l.

Definition generateStoryboardFrame (response : Outcome JsVal) : Outcome JsVal :=
  imageFromResponse response.

Definition editFrame (response : Outcome JsVal) : Outcome JsVal :=
  imageFromResponse response.

Definition refineImageClarity (response : Outcome JsVal) : Outcome JsVal :=
  imageFromResponse response.

(** [data.candidates?.[0]?.content?.parts?.[0]?.text || "Asset"]. *)
Definition analyzeAsset (response : Outcome JsVal) : Outcome JsVal :=
  data <- response ;;
  cs <- getProp data (js "candidates") ;;
  Ok (orElse
        (optProp
           (optElem0 (optProp (optProp (optElem0 cs) (js "content")) (js "parts")))
           (js "text"))
        (JStr (js "Asset"))).

End Platform.

(** The shape of a decoded response of the upstream API:
    [{ candidates: [{ content: { parts: [{ text?, inlineData?: { data, mimeType } }] } }] }]. *)
Record InlineData : Type := mkInlineData {
  data : jsstring;
  mimeType : jsstring
}.

Record Part : Type := mkPart {
  text : option jsstring;
  inlineData : option InlineData
}.

Record Content : Type := mkContent {
  parts : option (list Part)
}.

Record Candidate : Type := mkCandidate {
  content : option Content
}.

Record ApiResponse : Type := mkApiResponse {
  candidates : option (list Candidate)
}.

Definition inlineDataValue (d : InlineData) : JsVal :=
  JObj [(js "data", JStr (data d)); (js "mimeType", JStr (mimeType d))].

Definition partValue (p : Part) : JsVal :=
  JObj (optField "text" JStr (text p) ++
        optField "inlineData" inlineDataValue (inlineData p)).

Definition contentValue (c : Content) : JsVal :=
  JObj (optField "parts" (fun l => JArr (List.map partValue l)) (parts c)).

Definition candidateValue (c : Candidate) : JsVal :=
  JObj (optField "content" contentValue (content c)).

Definition responseValue (r : ApiResponse) : JsVal :=
  JObj (optField "candidates" (fun l => JArr (List.map candidateValue l))
          (candidates r)).

(** The parts of the first candidate of a response. *)
Definition firstCandidateParts (r : ApiResponse) : list Part :=
  match candidates r with
  | Some (c :: _) =>
      match content c with
      | Some k =>
          match parts k with
          | Some l => l
          | None => []
          end
      | None => []
      end
  | _ => []
  end.

(** Every part of every candidate of a response. *)
Definition allParts (r : ApiResponse) : list Part :=
  match candidates r with
  | Some cs =>
      flat_map (fun c =>
                  match content c with
                  | Some k =>
                      match parts k with
                      | Some l => l
                      | None => []
                      end
                  | None => []
                  end) cs
  | None => []
  end.

Definition hasInlineData (p : Part) : bool :=
  match inlineData p with
  | Some _ => true
  | None => false
  end.

Definition placeholder : jsstring := js "Asset".

(** The text decoder in the words of the specification: the text of the
    first part that has one, and the placeholder when there is none. *)
Definition firstTextPart (r : ApiResponse) : jsstring :=
  match find (fun p => match text p with Some _ => true | None => false end)
             (firstCandidateParts r) with
  | Some p =>
      match text p with
      | Some t => t
      | None => placeholder
      end
  | None => placeholder
  end.

(** The invariant of a queue of bound [n]: the counter is the number of
    suspended activations, it does not exceed the bound, and a task waits
    only while the bound is reached. *)
Definition Inv (n : Z) (q : RequestQueue) : Prop :=
  maxConcurrency q = n /\
  activeCount q = Z.of_nat (List.length (awaiting q)) /\
  activeCount q <= n /\
  (queue q <> [] -> activeCount q = n).

(** The delays of the first [j] retries: [2 ^ attempt * 2000] for the
    attempts [0] to [j - 1]. *)
Definition backoff (j : nat) : list Z :=
  List.map (fun k => 2 ^ Z.of_nat k * 2000) (seq 0 j).

(** A response whose first part is an image and whose second part is a
    text. *)
Definition imageThenText : ApiResponse :=
  {| candidates :=
       Some [ {| content :=
                   Some {| parts :=
                             Some [ {| text := None;
                                       inlineData :=
                                         Some {| data := js "iVBORw0KGgo=";
                                                 mimeType := js "image/png" |} |};
                                    {| text := Some (js "a red barn at dusk");
                                       inlineData := None |} ] |} |} ] |}.

(** ** Further definitions for the properties of the service and its callers *)


(** The tasks whose [await] has returned, in that order. *)
Fixpoint finished (obs : list Obs) : list Task :=
  match obs with
  | [] => []
  | Started _ :: rest => finished rest
  | Finished t :: rest => t :: finished rest
  end.

(** ** The dispatch task of [geminiRequest]

    What is thrown inside the task: an [Error] made with a message, or an
    exception of the platform passed on as it came. *)
Inductive Thrown : Type :=
| ErrorWithMessage (message : jsstring)
| NativeError (e : JsError).

(** How the promise of a dispatch settles. *)
Inductive Settled (A : Type) : Type :=
| Fulfilled (a : A)
| Rejected (t : Thrown).

Arguments Fulfilled {A} a.
Arguments Rejected {A} t.

Section Dispatch.

Variable JSON_parse : jsstring -> Outcome JsVal.
Variable JSON_stringify : JsVal -> jsstring.

(** The conversion to a string made by a template literal. *)
Variable ToString : JsVal -> jsstring.

(** [response.text()] called after [response.json()] has failed. *)
Variable textAfterJson : Response -> Outcome jsstring.

(** [response.json()]. *)
Definition responseJson (response : Response) : Outcome JsVal :=
  JSON_parse (bodyText response).

(** The inner [try]/[catch] of the error branch:
    [errorJson?.error?.message || JSON.stringify(errorJson)], and the text
    of the body when the body is not JSON. *)
Definition errorDetail (response : Response) : Outcome JsVal :=
  tryCatch
    (errorJson <- responseJson response ;;
     Ok (orElse (optProp (optProp errorJson (js "error")) (js "message"))
                (JStr (JSON_stringify errorJson))))
    (fun _ => t <- textAfterJson response ;; Ok (JStr t)).

(** [`[Gemini API Error] ${response.status}: ${errorDetail}`]. *)
Definition apiErrorMessage (response : Response) (detail : JsVal) : jsstring :=
  js "[Gemini API Error] " ++ ToString (JNum (status response)) ++ js ": "
    ++ ToString detail.

(** The task after [fetchWithRetry] has settled; the outer [catch] logs a
    hint and throws what it caught again. *)
Definition handleResponse (fetched : Outcome Response) : Settled JsVal :=
  match fetched with
  | Throw e => Rejected (NativeError e)
  | Ok response =>
      if negb (ok response) then
        match errorDetail response with
        | Ok detail => Rejected (ErrorWithMessage (apiErrorMessage response detail))
        | Throw e => Rejected (NativeError e)
        end
      else
        match responseJson response with
        | Ok v => Fulfilled v
        | Throw e => Rejected (NativeError e)
        end
  end.

(** The task [geminiRequest] hands to its queue: [fetchWithRetry(url,
    options)] with the default of three retries, then the handling of what
    came back. *)
Definition geminiRequestTask (net : nat -> Outcome Response)
  : option (Settled JsVal) :=
  match fetchWithRetry net 3 with
  | Some r => Some (handleResponse (result r))
  | None => None
  end.

(** [normalizeBaseUrl(config.apiHost || "")]; a host that is not a string
    has no [trim] to call. *)
Definition baseUrlOf (config : JsVal) : Outcome jsstring :=
  h <- getProp config (js "apiHost") ;;
  match orElse h (JStr (js "")) with
  | JStr s => Ok (normalizeBaseUrl s)
  | _ => Throw TypeError
  end.

(** [checkKeyStatus] of the application shell: the value it gives to
    [setIsProxyActive]. *)
Definition checkKeyStatus (saved : option jsstring) : bool :=
  match saved with
  | Some s =>
      if truthy (JStr s) then
        match (config <- JSON_parse s ;;
               h <- getProp config (js "apiHost") ;;
               Ok (truthy h)) with
        | Ok b => b
        | Throw _ => false
        end
      else false
  | None => false
  end.

End Dispatch.

(** ** The requests of the five operations *)

Definition comma : codeunit := 44%N.

(** [s.split(sep)] for a separator of one code unit. *)
Fixpoint splitOn (sep : codeunit) (s : jsstring) : list jsstring :=
  match s with
  | [] => [[]]
  | c :: r =>
      if (c =? sep)%N then [] :: splitOn sep r
      else
        match splitOn sep r with
        | h :: t => (c :: h) :: t
        | [] => [[c]]
        end
  end.

(** [imageUrlToBase64(url)].  [readAsBase64] stands for the branch that
    fetches the URL and reads the blob with a [FileReader], with its own
    [catch]. *)
Definition imageUrlToBase64 (readAsBase64 : jsstring -> Outcome JsVal)
    (url : jsstring) : Outcome JsVal :=
  if negb (truthy (JStr url)) then Ok (JStr (js ""))
  else if startsWith (js "data:") url then
    Ok match nth_error (splitOn comma url) 1 with
       | Some s => JStr s
       | None => JUndefined
       end
  else readAsBase64 url.

(** [const { field } = getConfig(); const model = field || fallback]. *)
Definition configuredModel (config : Outcome JsVal) (field fallback : string)
  : Outcome JsVal :=
  c <- config ;;
  m <- getProp c (js field) ;;
  Ok (orElse m (JStr (js fallback))).

Definition inlinePart (b64 : JsVal) : JsVal :=
  JObj [(js "inlineData",
         JObj [(js "data", b64); (js "mimeType", JStr (js "image/png"))])].

Definition textPart (t : jsstring) : JsVal := JObj [(js "text", JStr t)].

(** The [switch (config.panelType)] of [generateStoryboardFrame]. *)
Definition panelDesc (panelType : jsstring) : jsstring :=
  if jsstring_eqb panelType (js "4-grid") then js "a 2x2 grid of 4 sequential stills"
  else if jsstring_eqb panelType (js "9-grid") then js "a 3x3 grid of 9 sequential stills"
  else if jsstring_eqb panelType (js "16-grid") then js "a 4x4 grid of 16 sequential stills"
  else if jsstring_eqb panelType (js "25-grid") then js "a 5x5 grid of 25 sequential stills"
  else js "a single high-fidelity cinematic still".

Definition styleDesc (isSketchMode : JsVal) : jsstring :=
  if truthy isSketchMode
  then js "STYLE: Professional charcoal and pencil storyboard sketches, rough hand-drawn art."
  else js "STYLE: Realistic cinematic photography, high-fidelity movie still.".

(** The payload of [generateStoryboardFrame]; [assetData] and
    [previousData] are what [imageUrlToBase64] gave for the assets and for
    the previous frames. *)
Definition storyboardPayload (prompt : jsstring) (assetData previousData : list JsVal)
    (aspectRatio imageSize : JsVal) (panelType : jsstring) (isSketchMode : JsVal)
  : JsVal :=
  JObj [(js "contents",
         JArr [JObj [(js "parts",
                      JArr (List.map inlinePart assetData ++
                            List.map inlinePart previousData ++
                            [textPart (js "STORYBOARD TASK: " ++ panelDesc panelType
                                       ++ js ". " ++ styleDesc isSketchMode
                                       ++ js " Description: " ++ prompt)]))]]);
        (js "generationConfig",
         JObj [(js "imageConfig",
                JObj [(js "aspectRatio", aspectRatio); (js "imageSize", imageSize)])])].

(** The payload of [editFrame]; the mask is there when [maskImageUrl] is
    truthy. *)
Definition editPayload (originalData : JsVal) (maskData : option JsVal)
    (editPrompt : jsstring) : JsVal :=
  JObj [(js "contents",
         JArr [JObj [(js "parts",
                      JArr ([inlinePart originalData] ++
                            match maskData with
                            | Some m => [inlinePart m]
                            | None => []
                            end ++
                            [textPart (js "Edit: " ++ editPrompt
                                       ++ js ". Maintain cinematic style.")]))]])].

(** The payload of [refineImageClarity]; [assetData] is for the assets of
    type [CHARACTER]. *)
Definition refinePayload (assetData : list JsVal) (imageData : JsVal)
    (targetSize : jsstring) : JsVal :=
  JObj [(js "contents",
         JArr [JObj [(js "parts",
                      JArr (List.map inlinePart assetData ++
                            [inlinePart imageData;
                             textPart (js "Refine image clarity to " ++ targetSize
                                       ++ js " while maintaining character features.")]))]]);
        (js "generationConfig",
         JObj [(js "imageConfig", JObj [(js "imageSize", JStr targetSize)])])].

(** The payload of [analyzeAsset]. *)
Definition analyzePayload (imageData : JsVal) : JsVal :=
  JObj [(js "contents",
         JArr [JObj [(js "parts",
                      JArr [inlinePart imageData;
                            textPart (js "Describe this visual asset in 5 words.")])]])].

(** The payload and the model of [testConnection]. *)
Definition pingPayload : JsVal :=
  JObj [(js "contents", JArr [JObj [(js "parts", JArr [textPart (js "ping")])]])].

Definition pingModel : jsstring := js "gemini-2.0-flash".

(** A part whose [inlineData?.data] is truthy. *)
Definition usableImage (p : Part) : bool :=
  match inlineData p with
  | Some d => negb (isEmpty (data d))
  | None => false
  end.

Definition noComma (s : jsstring) : bool :=
  forallb (fun c => negb (c =? comma)%N) s.

(** ** The callers of the service: editor, sidebar, node and application shell *)

Module Ui.

(** *** The undo stack of the mask editor *)

(** [prev.slice(-19)]. *)
Definition sliceLast19 (prev : list jsstring) : list jsstring :=
  skipn (List.length prev - 19) prev.

(** The updater of [saveToUndo]: [[...prev.slice(-19), data]]. *)
Definition saveToUndo (data : jsstring) (prev : list jsstring) : list jsstring :=
  sliceLast19 prev ++ [data].

(** [handleUndo]: nothing on an empty stack; otherwise the last state, to
    be drawn, and the stack without it ([prev.slice(0, -1)]); the stack
    the handler reads is the one its updater receives. *)
Definition handleUndo (undoStack : list jsstring)
  : option (jsstring * list jsstring) :=
  if (List.length undoStack =? 0)%nat then None
  else Some (last undoStack [], removelast undoStack).

Inductive UndoOp : Type :=
| Save (data : jsstring)
| Undo.

Definition undoStep (stack : list jsstring) (op : UndoOp) : list jsstring :=
  match op with
  | Save data => saveToUndo data stack
  | Undo =>
      match handleUndo stack with
      | Some (_, rest) => rest
      | None => stack
      end
  end.

(** *** The name the sidebar gives to an uploaded asset *)

(** [description.slice(0, 30) + (description.length > 30 ? '...' : '')]. *)
Definition assetName (description : jsstring) : jsstring :=
  firstn 30 description ++
  (if (30 <? List.length description)%nat then js "..." else js "").

(** *** The grid of a storyboard node *)

(** [{ cols, rows }] by [data.panelType]. *)
Definition grid (panelType : jsstring) : Z * Z :=
  if jsstring_eqb panelType (js "4-grid") then (2, 2)
  else if jsstring_eqb panelType (js "9-grid") then (3, 3)
  else if jsstring_eqb panelType (js "16-grid") then (4, 4)
  else if jsstring_eqb panelType (js "25-grid") then (5, 5)
  else (1, 1).

(** [Math.floor(index / cols)] and [index % cols] of [handleSliceAction]. *)
Definition rowIndex (index cols : Z) : Z := index / cols.
Definition colIndex (index cols : Z) : Z := Z.rem index cols.

(** *** The asset selection of a node *)

(** [list.includes(id)]. *)
Definition includesId (id : jsstring) (ids : list jsstring) : bool :=
  existsb (fun x => jsstring_eqb x id) ids.

(** [toggleAsset]: the new [selectedAssetIds]. *)
Definition toggleAsset (assetId : jsstring) (currentSelected : list jsstring)
  : list jsstring :=
  if includesId assetId currentSelected
  then filter (fun sid => negb (jsstring_eqb sid assetId)) currentSelected
  else currentSelected ++ [assetId].

(** *** The graph of the application shell

    Of a node, the fields the handlers below read or write. *)
Record StoryNode : Type := mkStoryNode {
  nodeId : jsstring;
  parentIds : list jsstring;
  connectedTo : list jsstring;
  nodeContent : jsstring;
  nodeImageUrl : option jsstring;
  isGenerating : bool;
  isSketchMode : bool
}.

Record Edge : Type := mkEdge {
  edgeId : jsstring;
  source : jsstring;
  target : jsstring
}.


(** The node [addNode] builds. *)
Definition newNode (id : jsstring) (parents : list jsstring)
    (initialImageUrl : option jsstring) (isSketch : bool) : StoryNode :=
  {| nodeId := id;
     parentIds := parents;
     connectedTo := [];
     nodeContent := js "";
     nodeImageUrl := initialImageUrl;
     isGenerating := false;
     isSketchMode := isSketch |}.



(** The two updaters of [onDelete]. *)
Definition onDeleteNodes (id : jsstring) (nds : list StoryNode) : list StoryNode :=
  filter (fun n => negb (jsstring_eqb (nodeId n) id)) nds.

Definition onDeleteEdges (id : jsstring) (eds : list Edge) : list Edge :=
  filter (fun e => negb (jsstring_eqb (source e) id) &&
                   negb (jsstring_eqb (target e) id)) eds.

(** Both ends of every edge are nodes of the graph. *)
Definition closedGraph (nds : list StoryNode) (eds : list Edge) : Prop :=
  forall e, In e eds ->
    In (source e) (List.map nodeId nds) /\ In (target e) (List.map nodeId nds).

(** [previousFrameUrls] of [handleGenerate]: the images of the parents
    found through the edges that end at [id]. *)
Definition previousFrameUrls (id : jsstring) (nds : list StoryNode)
    (eds : list Edge) : list jsstring :=
  flat_map (fun e =>
              match find (fun n => jsstring_eqb (nodeId n) (source e)) nds with
              | Some p =>
                  match nodeImageUrl p with
                  | Some u => if isEmpty u then [] else [u]
                  | None => []
                  end
              | None => []
              end)
           (filter (fun e => jsstring_eqb (target e) id) eds).

End Ui.

(** ** The settings dialog and the two generation handlers of the shell *)

Module App.

(** [config.apiHost?.trim() || ''] of [handleSave]. *)
Definition cleanField (v : option jsstring) : jsstring :=
  match v with
  | Some s => if isEmpty (trim s) then js "" else trim s
  | None => js ""
  end.

(** [cleanConfig] of [handleSave], which is stored as
    [JSON.stringify(cleanConfig)] under [proxy_config]. *)
Definition cleanConfig (apiHost apiKey : option jsstring)
    (textModel imageModel : JsVal) : JsVal :=
  JObj [(js "apiHost", JStr (cleanField apiHost));
        (js "apiKey", JStr (cleanField apiKey));
        (js "textModel", textModel);
        (js "imageModel", imageModel)].

(** The state the handlers change: the nodes and the error shown.  A
    handler is read with its updaters applied one after the other, nothing
    else changing the state between them. *)
Record State : Type := mkState {
  nodes : list Ui.StoryNode;
  error : option jsstring
}.

(** [nds.map(n => n.id === id ? f(n) : n)]. *)
Definition updateNode (id : jsstring) (f : Ui.StoryNode -> Ui.StoryNode)
    (nds : list Ui.StoryNode) : list Ui.StoryNode :=
  List.map (fun n => if jsstring_eqb (Ui.nodeId n) id then f n else n) nds.

(** [{ ...n, data: { ...n.data, isGenerating: flag } }]. *)
Definition withGenerating (flag : bool) (n : Ui.StoryNode) : Ui.StoryNode :=
  {| Ui.nodeId := Ui.nodeId n;
     Ui.parentIds := Ui.parentIds n;
     Ui.connectedTo := Ui.connectedTo n;
     Ui.nodeContent := Ui.nodeContent n;
     Ui.nodeImageUrl := Ui.nodeImageUrl n;
     Ui.isGenerating := flag;
     Ui.isSketchMode := Ui.isSketchMode n |}.

(** [{ ...n, data: { ...n.data, imageUrl: result, isGenerating: false } }]. *)
Definition withImage (result : jsstring) (n : Ui.StoryNode) : Ui.StoryNode :=
  {| Ui.nodeId := Ui.nodeId n;
     Ui.parentIds := Ui.parentIds n;
     Ui.connectedTo := Ui.connectedTo n;
     Ui.nodeContent := Ui.nodeContent n;
     Ui.nodeImageUrl := Some result;
     Ui.isGenerating := false;
     Ui.isSketchMode := Ui.isSketchMode n |}.

(** The texts of the shell, as UTF-16 code units: the request to enter a
    description, the report that the model returned no image, and the
    fallbacks of the two handlers. *)
Definition promptMissing : jsstring :=
  [35831; 36755; 20837; 30011; 38754; 25551; 36848; 25110; 20998; 38236;
   21095; 26412; 12290]%N.

Definition noImageReturned : jsstring :=
  [27169; 22411; 26410; 36820; 22238; 22270; 20687; 32467; 26524]%N.

Definition generationFailed : jsstring := [29983; 25104; 22833; 36133; 12290]%N.

Definition editFailed : jsstring := [37325; 32472; 22833; 36133; 12290]%N.

Definition notFoundPhrase : jsstring := js "Requested entity was not found".

Section Handlers.

(** [err.message] of an exception of the platform. *)
Variable nativeMessage : JsError -> jsstring.

(** How [await ensureApiKey()] ends. *)
Variable ensureApiKey : Outcome unit.

(** How [await window.aistudio.openSelectKey()] ends; [None] when
    [window.aistudio] is undefined. *)
Variable openSelectKey : option (Outcome unit).

Definition messageOf (t : Thrown) : jsstring :=
  match t with
  | ErrorWithMessage m => m
  | NativeError e => nativeMessage e
  end.

(** The [catch] block of the two handlers; the second component is what
    the handler itself throws, if it does. *)
Definition onFailure (fallback id : jsstring) (t : Thrown) (s : State)
  : State * option JsError :=
  let proceed :=
    ({| nodes := updateNode id (withGenerating false) (nodes s);
        error := Some (if isEmpty (messageOf t) then fallback else messageOf t) |},
     None) in
  if includes notFoundPhrase (messageOf t) then
    match openSelectKey with
    | Some (Throw e) => (s, Some e)
    | _ => proceed
    end
  else proceed.

(** [handleGenerate(id)]; [generate] is how the call of
    [generateStoryboardFrame] settles, [None] standing for [undefined]. *)
Definition handleGenerate (generate : Settled (option jsstring)) (id : jsstring)
    (s : State) : State * option JsError :=
  let refused := ({| nodes := nodes s; error := Some promptMissing |}, None) in
  match find (fun n => jsstring_eqb (Ui.nodeId n) id) (nodes s) with
  | None => refused
  | Some node =>
      if isEmpty (trim (Ui.nodeContent node)) then refused
      else
        match ensureApiKey with
        | Throw e => ({| nodes := nodes s; error := None |}, Some e)
        | Ok _ =>
            let s1 := {| nodes := updateNode id (withGenerating true) (nodes s);
                         error := None |} in
            let absent :=
              onFailure generationFailed id (ErrorWithMessage noImageReturned) s1 in
            match generate with
            | Fulfilled (Some result) =>
                if isEmpty result then absent
                else ({| nodes := updateNode id (withImage result) (nodes s1);
                         error := None |}, None)
            | Fulfilled None => absent
            | Rejected t => onFailure generationFailed id t s1
            end
        end
  end.

(** [handleEditSave]; [editorNodeId] is [editor.nodeId] and [edit] is how
    the call of [editFrame] settles. *)
Definition handleEditSave (edit : Settled (option jsstring))
    (editorNodeId : option jsstring) (s : State) : State * option JsError :=
  match editorNodeId with
  | None => (s, None)
  | Some id =>
      if isEmpty id then (s, None)
      else
        match find (fun n => jsstring_eqb (Ui.nodeId n) id) (nodes s) with
        | None => (s, None)
        | Some node =>
            match Ui.nodeImageUrl node with
            | None => (s, None)
            | Some imageUrl =>
                if isEmpty imageUrl then (s, None)
                else
                  match ensureApiKey with
                  | Throw e => (s, Some e)
                  | Ok _ =>
                      let s1 :=
                        {| nodes := updateNode id (withGenerating true) (nodes s);
                           error := None |} in
                      match edit with
                      | Fulfilled (Some result) =>
                          if isEmpty result then (s1, None)
                          else ({| nodes := updateNode id (withImage result)
                                              (nodes s1);
                                   error := None |}, None)
                      | Fulfilled None => (s1, None)
                      | Rejected t => onFailure editFailed id t s1
                      end
                  end
            end
        end
  end.

End Handlers.

End App.

(** * Properties *)

(** ** Strings *)

Lemma startsWith_app (p s : jsstring) : startsWith p (p ++ s) = true.
Proof.
  induction p as [|a p IH]; simpl; [reflexivity|].
  now rewrite N.eqb_refl.
Qed.

Lemma startsWith_prefix (p s : jsstring) :
  startsWith p s = true -> exists t, s = p ++ t.
Proof.
  revert s; induction p as [|a p IH]; intros s H.
  - now exists s.
  - destruct s as [|b s]; simpl in H; [discriminate|].
    apply andb_true_iff in H as [Hab Hp].
    apply N.eqb_eq in Hab; subst b.
    destruct (IH _ Hp) as [t ->].
    now exists t.
Qed.

Lemma includes_startsWith (p s : jsstring) :
  startsWith p s = true -> includes p s = true.
Proof.
  intros H; destruct s; simpl; now rewrite H.
Qed.

(** [includes p s] holds exactly when [p] occurs in [s]. *)
Lemma includes_spec (p s : jsstring) :
  includes p s = true <-> exists a b, s = a ++ p ++ b.
Proof.
  split.
  - induction s as [|c s IH]; simpl; intros H.
    + rewrite orb_false_r in H.
      destruct (startsWith_prefix _ _ H) as [t Ht].
      now exists [], t.
    + apply orb_true_iff in H as [H|H].
      * destruct (startsWith_prefix _ _ H) as [t Ht].
        now exists [], t.
      * destruct (IH H) as (a & b & ->).
        now exists (c :: a), b.
  - intros (a & b & ->).
    induction a as [|c a IH].
    + change ([] ++ p ++ b) with (p ++ b).
      apply includes_startsWith, startsWith_app.
    + simpl. rewrite IH. apply orb_true_r.
Qed.

Lemma dropWhile_app_all (p : codeunit -> bool) (l s : jsstring) :
  forallb p l = true -> dropWhile p (l ++ s) = dropWhile p s.
Proof.
  induction l as [|c l IH]; simpl; intros H; [reflexivity|].
  apply andb_true_iff in H as [Hc Hl].
  rewrite Hc; auto.
Qed.

Lemma dropWhile_all (p : codeunit -> bool) (l : jsstring) :
  forallb p l = true -> dropWhile p l = [].
Proof.
  intros H. rewrite <- (app_nil_r l), dropWhile_app_all by assumption.
  reflexivity.
Qed.

Lemma dropWhileEnd_all (p : codeunit -> bool) (r : jsstring) :
  forallb p r = true -> dropWhileEnd p r = [].
Proof.
  induction r as [|c r IH]; simpl; intros H; [reflexivity|].
  apply andb_true_iff in H as [Hc Hr].
  now rewrite (IH Hr), Hc.
Qed.

Lemma dropWhileEnd_app_all (p : codeunit -> bool) (s r : jsstring) :
  forallb p r = true -> dropWhileEnd p (s ++ r) = dropWhileEnd p s.
Proof.
  intros H; induction s as [|c s IH]; simpl.
  - now apply dropWhileEnd_all.
  - now rewrite IH.
Qed.

Lemma dropWhileEnd_none (p : codeunit -> bool) (s : jsstring) :
  forallb (fun c => negb (p c)) s = true -> dropWhileEnd p s = s.
Proof.
  induction s as [|c s IH]; simpl; intros H; [reflexivity|].
  apply andb_true_iff in H as [Hc Hs].
  rewrite (IH Hs).
  destruct s; [|reflexivity].
  apply negb_true_iff in Hc. now rewrite Hc.
Qed.

Lemma dropWhile_split (p : codeunit -> bool) (s : jsstring) :
  exists l, s = l ++ dropWhile p s /\ forallb p l = true.
Proof.
  induction s as [|c s (l & Hl & Hp)]; simpl.
  - now exists [].
  - destruct (p c) eqn:E.
    + exists (c :: l); simpl. rewrite E, Hp. split; [now f_equal|reflexivity].
    + now exists [].
Qed.

Lemma dropWhileEnd_split (p : codeunit -> bool) (s : jsstring) :
  exists r, s = dropWhileEnd p s ++ r /\ forallb p r = true.
Proof.
  induction s as [|c s (r & Hr & Hp)]; simpl.
  - now exists [].
  - destruct (dropWhileEnd p s) as [|d t] eqn:E.
    + simpl in Hr. subst r. destruct (p c) eqn:Ec.
      * exists (c :: s); simpl. rewrite Ec, Hp. now split.
      * exists s; simpl. now split.
    + exists r. split; [|assumption].
      simpl. f_equal. exact Hr.
Qed.

(** [trim] removes a run of white space at each end, and nothing else. *)
Lemma trim_split (s : jsstring) :
  exists l r, s = l ++ trim s ++ r /\
    forallb isWhiteSpace l = true /\ forallb isWhiteSpace r = true.
Proof.
  unfold trim.
  destruct (dropWhile_split isWhiteSpace s) as (l & Hl & Hpl).
  destruct (dropWhileEnd_split isWhiteSpace (dropWhile isWhiteSpace s))
    as (r & Hr & Hpr).
  exists l, r. repeat split; try assumption.
  now rewrite <- Hr.
Qed.

Lemma dropWhile_head (p : codeunit -> bool) (s : jsstring) (c : codeunit)
    (t : jsstring) :
  dropWhile p s = c :: t -> p c = false.
Proof.
  induction s as [|d s IH]; simpl; [discriminate|].
  destruct (p d) eqn:E; [assumption|].
  intros H; now injection H as -> _.
Qed.

Lemma dropWhileEnd_last (p : codeunit -> bool) (s t : jsstring) (c : codeunit) :
  dropWhileEnd p s = t ++ [c] -> p c = false.
Proof.
  revert t; induction s as [|d s IH]; simpl; intros t H.
  - now destruct t.
  - destruct (dropWhileEnd p s) as [|e u] eqn:E.
    + destruct (p d) eqn:Ed.
      * now destruct t.
      * destruct t as [|x [|y t]]; try discriminate.
        now injection H as <-.
    + destruct t as [|x t]; [discriminate|].
      injection H as _ H. now apply (IH t).
Qed.

Lemma dropWhileEnd_head (p : codeunit -> bool) (s : jsstring) (c : codeunit)
    (t : jsstring) :
  dropWhileEnd p s = c :: t -> exists u, s = c :: u.
Proof.
  destruct s as [|d s]; simpl; [discriminate|].
  destruct (dropWhileEnd p s); [destruct (p d)|]; intros H;
    try discriminate; injection H as -> _; now exists s.
Qed.

(** The trimmed string neither starts nor ends with white space. *)
Lemma trim_ends (s : jsstring) :
  (forall c t, trim s = c :: t -> isWhiteSpace c = false) /\
  (forall t c, trim s = t ++ [c] -> isWhiteSpace c = false).
Proof.
  unfold trim; split.
  - intros c t H.
    destruct (dropWhileEnd_head _ _ _ _ H) as [u Hu].
    now apply (dropWhile_head _ _ _ _ Hu).
  - intros t c H. now apply (dropWhileEnd_last _ _ _ _ H).
Qed.

Lemma replaceTrailingSlashes_all (s : jsstring) :
  forallb isSlash s = true -> replaceTrailingSlashes s = [].
Proof.
  destruct s as [|c s]; [reflexivity|].
  intros H; unfold replaceTrailingSlashes. now rewrite H.
Qed.

Lemma forallb_isSlash_repeat (s : jsstring) :
  forallb isSlash s = true -> s = repeat slash (List.length s).
Proof.
  induction s as [|c s IH]; simpl; intros H; [reflexivity|].
  apply andb_true_iff in H as [Hc Hs].
  apply N.eqb_eq in Hc. subst c. now rewrite <- IH.
Qed.

(** The replacement removes the run of slashes that ends the string, and
    nothing else. *)
Lemma replaceTrailingSlashes_split (s : jsstring) :
  exists n, s = replaceTrailingSlashes s ++ repeat slash n /\
    (forall t c, replaceTrailingSlashes s = t ++ [c] -> isSlash c = false).
Proof.
  induction s as [|c s (n & Hn & Hlast)].
  - exists 0%nat. split; [reflexivity|]. intros [|? ?] ? H; discriminate.
  - cbn [replaceTrailingSlashes].
    destruct (forallb isSlash (c :: s)) eqn:E.
    + exists (List.length (c :: s)). split.
      * now apply forallb_isSlash_repeat.
      * intros [|? ?] ? H; discriminate.
    + exists n. split.
      * simpl. now rewrite <- Hn.
      * intros t d H.
        destruct t as [|x t].
        -- simpl in H. injection H as -> Hs.
           simpl in E. rewrite Hs in Hn. simpl in Hn.
           destruct (isSlash d) eqn:Ed; [|reflexivity].
           simpl in E. rewrite Hn in E.
           assert (forallb isSlash (repeat slash n) = true) as F.
           { clear. induction n; simpl; [reflexivity|assumption]. }
           rewrite F in E. discriminate.
        -- injection H as _ H. now apply (Hlast t).
Qed.

(** ** Base-URL normalization *)

Lemma trim_slashes (l r : jsstring) (n : nat) :
  forallb isWhiteSpace l = true -> forallb isWhiteSpace r = true ->
  trim (l ++ repeat slash n ++ r) = repeat slash n.
Proof.
  intros Hl Hr. unfold trim.
  rewrite dropWhile_app_all by assumption.
  destruct n as [|n].
  - simpl. now rewrite dropWhile_all.
  - change (dropWhile isWhiteSpace (repeat slash (S n) ++ r))
      with (repeat slash (S n) ++ r).
    rewrite dropWhileEnd_app_all by assumption.
    apply dropWhileEnd_none.
    generalize (S n); intros m; induction m; simpl; [reflexivity|assumption].
Qed.

Lemma forallb_isSlash_repeat_slash (n : nat) :
  forallb isSlash (repeat slash n) = true.
Proof. induction n; simpl; [reflexivity|assumption]. Qed.

(** C6, as amended.  With [url] the host trimmed of surrounding white space
    and of its trailing slashes: the host is [url] between white space,
    followed by the slashes removed; an empty [url] gives the default public
    origin; a [url] that begins with a slash is returned as it is, a
    same-origin relative path; any other [url] is returned as it is when it
    has an http or https scheme and prefixed with [https://] when it has
    none. *)
Theorem normalizeBaseUrl_cases (host : jsstring) :
  let url := replaceTrailingSlashes (trim host) in
  (exists l n r,
      host = l ++ (url ++ repeat slash n) ++ r /\
      forallb isWhiteSpace l = true /\ forallb isWhiteSpace r = true) /\
  (forall t c, url = t ++ [c] -> isSlash c = false) /\
  (url = [] -> normalizeBaseUrl host = defaultOrigin) /\
  (startsWith (js "/") url = true ->
   normalizeBaseUrl host = url /\
   exists a b, host = a ++ slash :: b /\ forallb isWhiteSpace a = true) /\
  (url <> [] -> startsWith (js "/") url = false -> hasHttpScheme url = true ->
   normalizeBaseUrl host = url) /\
  (url <> [] -> startsWith (js "/") url = false -> hasHttpScheme url = false ->
   normalizeBaseUrl host = js "https://" ++ url).
Proof.
  intros url.
  destruct (trim_split host) as (l & r & Hhost & Hl & Hr).
  destruct (replaceTrailingSlashes_split (trim host)) as (n & Hn & Hlast).
  fold url in Hn, Hlast.
  split; [|split; [|split; [|split; [|split]]]].
  - exists l, n, r. now rewrite <- Hn.
  - exact Hlast.
  - intros E. unfold normalizeBaseUrl. fold url. now rewrite E.
  - intros Hs. unfold normalizeBaseUrl. fold url.
    destruct url as [|c u] eqn:E; [discriminate|].
    cbn [isEmpty]. rewrite Hs. split; [reflexivity|].
    destruct (startsWith_prefix _ _ Hs) as [t Ht].
    change (js "/" ++ t) with (slash :: t) in Ht. injection Ht as -> ->.
    exists l, (t ++ repeat slash n ++ r). split; [|assumption].
    rewrite Hhost, Hn. simpl. now rewrite <- app_assoc.
  - intros Hne Hs Hh. unfold normalizeBaseUrl. fold url.
    destruct url; [congruence|]. cbn [isEmpty]. now rewrite Hs, Hh.
  - intros Hne Hs Hh. unfold normalizeBaseUrl. fold url.
    destruct url; [congruence|]. cbn [isEmpty]. now rewrite Hs, Hh.
Qed.

Lemma normalizeBaseUrl_cases_witness :
  normalizeBaseUrl (js " /api/ ") = js "/api" /\
  normalizeBaseUrl (js "example.com") = js "https://example.com" /\
  normalizeBaseUrl (js "HTTP://proxy.local:8080//") = js "HTTP://proxy.local:8080" /\
  normalizeBaseUrl (js "") = defaultOrigin.
Proof.
  pose proof (normalizeBaseUrl_cases (js " /api/ ")) as A.
  pose proof (normalizeBaseUrl_cases (js "example.com")) as B.
  pose proof (normalizeBaseUrl_cases (js "HTTP://proxy.local:8080//")) as C.
  pose proof (normalizeBaseUrl_cases (js "")) as D.
  cbv zeta in A, B, C, D.
  destruct A as (_ & _ & _ & A & _).
  destruct B as (_ & _ & _ & _ & _ & B).
  destruct C as (_ & _ & _ & _ & C & _).
  destruct D as (_ & _ & D & _).
  split; [|split; [|split]].
  - apply A. reflexivity.
  - apply B; [vm_compute; discriminate|reflexivity|reflexivity].
  - apply C; [vm_compute; discriminate|reflexivity|reflexivity].
  - apply D. reflexivity.
Defined.

(** C6, as stated, fails at the host ["/"]: it begins with a slash, and what
    comes back is the default public origin, not a relative path. *)
Lemma normalizeBaseUrl_root_not_relative :
  startsWith (js "/") (js "/") = true /\
  normalizeBaseUrl (js "/") = defaultOrigin /\
  startsWith (js "/") (normalizeBaseUrl (js "/")) = false.
Proof. repeat split. Qed.

(** C10.  A host made only of slashes, with white space around it or not,
    gives the default public origin, which is not a relative path. *)
Theorem normalizeBaseUrl_only_slashes (l r : jsstring) (n : nat) :
  forallb isWhiteSpace l = true -> forallb isWhiteSpace r = true ->
  normalizeBaseUrl (l ++ repeat slash n ++ r) = defaultOrigin /\
  startsWith (js "/") (normalizeBaseUrl (l ++ repeat slash n ++ r)) = false.
Proof.
  intros Hl Hr.
  assert (normalizeBaseUrl (l ++ repeat slash n ++ r) = defaultOrigin) as E.
  { unfold normalizeBaseUrl.
    rewrite trim_slashes by assumption.
    now rewrite replaceTrailingSlashes_all by apply forallb_isSlash_repeat_slash. }
  rewrite E. split; reflexivity.
Qed.

Lemma normalizeBaseUrl_only_slashes_witness :
  normalizeBaseUrl (js " // ") = defaultOrigin /\
  startsWith (js "/") (normalizeBaseUrl (js " // ")) = false.
Proof.
  apply (normalizeBaseUrl_only_slashes (js " ") (js " ") 2); reflexivity.
Defined.

(** ** The bounded task queue *)

Lemma process_cases (q : RequestQueue) :
  (process q = (q, []) /\
   (maxConcurrency q <= activeCount q \/ queue q = [])) \/
  (exists task rest,
      queue q = task :: rest /\
      activeCount q < maxConcurrency q /\
      process q =
        ({| queue := rest;
            activeCount := activeCount q + 1;
            maxConcurrency := maxConcurrency q;
            awaiting := awaiting q ++ [task] |},
         [Started task])).
Proof.
  unfold process. rewrite Z.geb_leb.
  destruct (Z.leb_spec (maxConcurrency q) (activeCount q)) as [H|H].
  - left. split; [reflexivity|now left].
  - destruct (queue q) as [|task rest] eqn:E; simpl.
    + left. split; [reflexivity|now right].
    + right. exists task, rest. repeat split; assumption.
Qed.

Lemma length_removeFirst (t : Task) (l : list Task) :
  memTask t l = true ->
  List.length l = S (List.length (removeFirst t l)).
Proof.
  induction l as [|x l IH]; simpl; [discriminate|].
  destruct (x =? t)%nat; simpl; [reflexivity|].
  intros H. now rewrite <- IH.
Qed.

Lemma Inv_new (n : Z) : 0 <= n -> Inv n (newRequestQueue n).
Proof.
  intros H. unfold Inv; simpl. repeat split; try lia. congruence.
Qed.

Lemma Inv_add (n : Z) (t : Task) (q : RequestQueue) :
  Inv n q -> Inv n (fst (add t q)).
Proof.
  intros (Hm & Hc & Hb & Hp). unfold add.
  destruct (process_cases (push t q)) as [[E Hr]|(t0 & rest & Hq & Hlt & E)];
    rewrite E; simpl in *.
  - unfold Inv; simpl. repeat split; try assumption.
    intros _. destruct Hr as [Hr|Hr]; [lia|].
    now destruct (queue q).
  - assert (queue q = []) as Hnil.
    { destruct (queue q) eqn:Eq; [reflexivity|].
      assert (activeCount q = n) by (apply Hp; discriminate). lia. }
    rewrite Hnil in Hq. simpl in Hq. injection Hq as <- <-.
    unfold Inv; simpl. rewrite length_app; simpl.
    repeat split; try lia. congruence.
Qed.

Lemma Inv_settle (n : Z) (t : Task) (q : RequestQueue) :
  Inv n q -> memTask t (awaiting q) = true -> Inv n (fst (settle t q)).
Proof.
  intros (Hm & Hc & Hb & Hp) Hin. unfold settle.
  pose proof (length_removeFirst _ _ Hin) as Hlen.
  destruct (process_cases (release t q)) as [[E Hr]|(t0 & rest & Hq & Hlt & E)];
    rewrite E; simpl in *.
  - unfold Inv; simpl. repeat split; try lia.
    intros Hne. destruct Hr as [Hr|Hr]; [lia|contradiction].
  - assert (activeCount q = n) as Hfull
        by (apply Hp; rewrite Hq; discriminate).
    unfold Inv; simpl. rewrite length_app; simpl.
    repeat split; lia.
Qed.

Lemma Inv_step (n : Z) (e : Event) (q q' : RequestQueue) (o : list Obs) :
  Inv n q -> step q e = Some (q', o) -> Inv n q'.
Proof.
  intros HI H. destruct e as [t|t]; simpl in H.
  - injection H as H. pose proof (Inv_add n t q HI) as H'.
    now rewrite H in H'.
  - destruct (memTask t (awaiting q)) eqn:Hin; [|discriminate].
    injection H as H. pose proof (Inv_settle n t q HI Hin) as H'.
    now rewrite H in H'.
Qed.

Lemma Inv_run (n : Z) (evs : list Event) (q q' : RequestQueue) (obs : list Obs) :
  Inv n q -> run q evs = Some (q', obs) -> Inv n q'.
Proof.
  revert q obs. induction evs as [|e evs IH]; simpl; intros q obs HI H.
  - now injection H as <- _.
  - destruct (step q e) as [[q1 o]|] eqn:Es; [|discriminate].
    destruct (run q1 evs) as [[q2 o']|] eqn:Er; [|discriminate].
    injection H as <- _.
    eapply IH; [|exact Er]. eapply Inv_step; eassumption.
Qed.


(** [process] starts a task only below the bound, and then the head of the
    queue. *)
Lemma process_starts (q q' : RequestQueue) (o : list Obs) :
  process q = (q', o) -> o <> [] ->
  activeCount q < maxConcurrency q /\
  exists task, queue q = task :: queue q' /\ o = [Started task] /\
               activeCount q' = activeCount q + 1.
Proof.
  intros H Hne.
  destruct (process_cases q) as [[E _]|(task & rest & Hq & Hlt & E)];
    rewrite E in H; injection H as <- <-.
  - contradiction.
  - split; [assumption|]. exists task. simpl. now repeat split.
Qed.

(** C1.  On a queue of bound [n], whatever is submitted and whatever
    settles: the counter stays between 0 and [n] in every state reached,
    also between the two statements of [add] and of the [finally] block;
    and [process] dequeues and starts a task only from a state whose
    counter is below [n]. *)
Theorem activeCount_bounded (n : Z) (evs : list Event) (q : RequestQueue)
    (obs : list Obs) :
  0 <= n ->
  run (newRequestQueue n) evs = Some (q, obs) ->
  0 <= activeCount q <= n /\
  (forall t, 0 <= activeCount (push t q) <= n) /\
  (forall t, memTask t (awaiting q) = true ->
             0 <= activeCount (release t q) <= n) /\
  (forall q0 q1 o,
      maxConcurrency q0 = n -> process q0 = (q1, o) -> o <> [] ->
      activeCount q0 < n /\ activeCount q1 <= n).
Proof.
  intros Hn Hrun.
  destruct (Inv_run n evs _ _ _ (Inv_new n Hn) Hrun) as (Hm & Hc & Hb & Hp).
  split; [lia|]. split; [simpl; lia|]. split.
  - intros t Hin. pose proof (length_removeFirst _ _ Hin). simpl. lia.
  - intros q0 q1 o Hmax H Hne.
    destruct (process_starts _ _ _ H Hne) as (Hlt & task & _ & _ & Hq1). lia.
Qed.

Lemma activeCount_bounded_witness :
  run (newRequestQueue 2) [Add 1; Add 2; Add 3; Settle 2; Add 4]%nat
    = Some ({| queue := [4%nat]; activeCount := 2; maxConcurrency := 2;
               awaiting := [1; 3]%nat |},
            [Started 1; Started 2; Finished 2; Started 3]%nat) /\
  0 <= 2 <= 2.
Proof.
  split; [reflexivity|].
  apply (activeCount_bounded 2 [Add 1; Add 2; Add 3; Settle 2; Add 4]%nat
           {| queue := [4%nat]; activeCount := 2; maxConcurrency := 2;
              awaiting := [1; 3]%nat |}
           [Started 1; Started 2; Finished 2; Started 3]%nat);
    [lia|reflexivity].
Defined.

(** Below zero there is no such invariant: a queue built with a negative
    bound starts with its counter above the bound. *)
Remark activeCount_negative_bound :
  activeCount (newRequestQueue (-1)) > maxConcurrency (newRequestQueue (-1)).
Proof. reflexivity. Qed.

Lemma started_app (a b : list Obs) : started (a ++ b) = started a ++ started b.
Proof.
  induction a as [|[t|t] a IH]; simpl; [reflexivity| |assumption].
  now rewrite IH.
Qed.

Lemma step_fifo (q q' : RequestQueue) (e : Event) (o : list Obs) :
  step q e = Some (q', o) ->
  started o ++ queue q' = queue q ++ submitted [e].
Proof.
  destruct e as [t|t]; simpl; intros H.
  - injection H as H. unfold add in H.
    destruct (process_cases (push t q)) as [[E _]|(t0 & rest & Hq & _ & E)];
      rewrite E in H; injection H as <- <-; simpl in *.
    + reflexivity.
    + now rewrite Hq.
  - destruct (memTask t (awaiting q)); [|discriminate].
    injection H as H. unfold settle in H.
    destruct (process_cases (release t q)) as [[E _]|(t0 & rest & Hq & _ & E)];
      rewrite E in H; injection H as <- <-; simpl in *.
    + now rewrite app_nil_r.
    + now rewrite app_nil_r, Hq.
Qed.

Lemma submitted_cons (e : Event) (evs : list Event) :
  submitted (e :: evs) = submitted [e] ++ submitted evs.
Proof. destruct e; reflexivity. Qed.

(** The tasks started so far, followed by the pending ones, are the tasks
    submitted, in the order of submission. *)
Lemma run_fifo (evs : list Event) (q q' : RequestQueue) (obs : list Obs) :
  run q evs = Some (q', obs) ->
  started obs ++ queue q' = queue q ++ submitted evs.
Proof.
  revert q obs. induction evs as [|e evs IH]; intros q obs H.
  - simpl in H. injection H as <- <-. simpl. now rewrite app_nil_r.
  - cbn [run] in H.
    destruct (step q e) as [[q1 o]|] eqn:Es; [|discriminate].
    destruct (run q1 evs) as [[q2 o']|] eqn:Er; [|discriminate].
    injection H as <- <-.
    rewrite started_app, <- app_assoc, (IH _ _ Er), app_assoc.
    rewrite (step_fifo _ _ _ _ Es), <- app_assoc.
    now rewrite <- submitted_cons.
Qed.

Lemma Inv_one_awaiting (q : RequestQueue) :
  Inv 1 q -> awaiting q = [] \/ exists u, awaiting q = [u].
Proof.
  intros (_ & Hc & Hb & _).
  destruct (awaiting q) as [|u [|v l]]; [now left|right; now exists u|].
  simpl in Hc. lia.
Qed.

Lemma run_serial (evs : list Event) (q q' : RequestQueue) (obs : list Obs) :
  Inv 1 q -> run q evs = Some (q', obs) ->
  serial (hd_error (awaiting q)) obs = true.
Proof.
  revert q obs. induction evs as [|e evs IH]; intros q obs HI H.
  - simpl in H. now injection H as <- <-.
  - cbn [run] in H.
    destruct (step q e) as [[q1 o]|] eqn:Es; [|discriminate].
    destruct (run q1 evs) as [[q2 o']|] eqn:Er; [|discriminate].
    injection H as <- <-.
    pose proof (IH _ _ (Inv_step _ _ _ _ _ HI Es) Er) as Hrest.
    destruct HI as (Hm & Hc & Hb & Hp).
    destruct e as [t|t]; simpl in Es.
    + injection Es as Es. unfold add in Es.
      destruct (process_cases (push t q)) as [[E _]|(t0 & rest & Hq & Hlt & E)];
        rewrite E in Es; injection Es as <- <-; simpl in *.
      * assumption.
      * destruct (awaiting q) as [|u l]; [assumption|].
        simpl in Hc. lia.
    + destruct (memTask t (awaiting q)) eqn:Hin; [|discriminate].
      injection Es as Es. unfold settle in Es.
      destruct (awaiting q) as [|u [|v l]] eqn:Ea;
        [discriminate| |simpl in Hc; lia].
      simpl in Hin. rewrite orb_false_r in Hin.
      destruct (process_cases (release t q)) as [[E _]|(t0 & rest & Hq & Hlt & E)];
        rewrite E in Es; injection Es as <- <-; simpl in *;
        rewrite Ea in Hrest; simpl in Hrest; rewrite Hin in *; simpl in *;
        assumption.
Qed.

(** C2.  Tasks are started in the order of submission: those started so
    far followed by those still pending are the tasks submitted, in that
    order.  On a queue of bound 1 the log is serial, each task finishing
    before the next one starts, and a task waits only while one runs. *)
Theorem admission_fifo (n : Z) (evs : list Event) (q : RequestQueue)
    (obs : list Obs) :
  run (newRequestQueue n) evs = Some (q, obs) ->
  started obs ++ queue q = submitted evs /\
  (n = 1 ->
   serial None obs = true /\
   (queue q <> [] -> exists t, awaiting q = [t])).
Proof.
  intros H. split.
  - now rewrite (run_fifo _ _ _ _ H).
  - intros ->. split.
    + apply (run_serial evs _ _ _ (Inv_new 1 ltac:(lia)) H).
    + intros Hne.
      pose proof (Inv_run 1 evs _ _ _ (Inv_new 1 ltac:(lia)) H) as HI.
      destruct (Inv_one_awaiting _ HI) as [E|E]; [|assumption].
      destruct HI as (_ & Hc & _ & Hp).
      rewrite (Hp Hne), E in Hc. discriminate.
Qed.

Lemma admission_fifo_witness :
  run imageQueue [Add 7; Add 8; Add 9; Settle 7; Settle 8]%nat
    = Some ({| queue := []; activeCount := 1; maxConcurrency := 1;
               awaiting := [9%nat] |},
            [Started 7; Finished 7; Started 8; Finished 8; Started 9]%nat) /\
  started [Started 7; Finished 7; Started 8; Finished 8; Started 9]%nat ++ []
    = [7; 8; 9]%nat /\
  serial None [Started 7; Finished 7; Started 8; Finished 8; Started 9]%nat = true.
Proof.
  split; [reflexivity|].
  pose proof (admission_fifo 1 [Add 7; Add 8; Add 9; Settle 7; Settle 8]%nat
                {| queue := []; activeCount := 1; maxConcurrency := 1;
                   awaiting := [9%nat] |}
                [Started 7; Finished 7; Started 8; Finished 8; Started 9]%nat
                eq_refl) as [Hf Hs].
  split; [exact Hf|]. now apply Hs.
Defined.

(** ** The backoff fetcher *)

Lemma retryable_iff (r : Response) :
  retryable r = true <-> status r = 429 \/ 500 <= status r <= 599.
Proof.
  unfold retryable.
  rewrite orb_true_iff, andb_true_iff, Z.eqb_eq, Z.geb_leb, !Z.leb_le.
  tauto.
Qed.

Lemma backoff_S (j : nat) :
  backoff (S j) = backoff j ++ [2 ^ Z.of_nat j * 2000].
Proof.
  unfold backoff. now rewrite seq_S, map_app.
Qed.

Lemma length_backoff (j : nat) : List.length (backoff j) = j.
Proof. unfold backoff. now rewrite length_map, length_seq. Qed.

(** The loop never runs out of fuel when it is given one unit per attempt
    left and one more. *)
Lemma retryLoop_total (fuel : nat) (net : nat -> Outcome Response)
    (m a : Z) (sent : nat) (slept : list Z) :
  (Z.to_nat (m + 1 - a) < fuel)%nat ->
  exists r, retryLoop fuel net m a sent slept = Some r.
Proof.
  revert a sent slept.
  induction fuel as [|fuel IH]; intros a sent slept Hf; [lia|].
  cbn [retryLoop].
  destruct (Z.leb_spec a m) as [Ha|Ha]; [|eexists; reflexivity].
  destruct (net sent) as [response|e]; [|eexists; reflexivity].
  destruct (retryable response); [|eexists; reflexivity].
  destruct (a =? m) eqn:Eam; [eexists; reflexivity|].
  apply IH. lia.
Qed.

(** What a run of the loop amounts to: [j] retries, each after a
    retryable response and each after its backoff delay, and then the
    answer to request [j] handed back as it came. *)
Lemma retryLoop_spec (fuel : nat) (net : nat -> Outcome Response)
    (m : Z) (sent : nat) (r : FetchRun) :
  retryLoop fuel net m (Z.of_nat sent) sent (backoff sent) = Some r ->
  (forall k, (k < sent)%nat ->
             exists resp, net k = Ok resp /\ retryable resp = true) ->
  exists j,
    (sent <= j)%nat /\
    r = {| result := net j; delays := backoff j; calls := S j |} /\
    (forall k, (k < j)%nat ->
               exists resp, net k = Ok resp /\ retryable resp = true) /\
    (forall resp, net j = Ok resp -> retryable resp = true ->
                  m <= Z.of_nat j).
Proof.
  revert sent.
  induction fuel as [|fuel IH]; intros sent H Hprev; [discriminate|].
  cbn [retryLoop] in H.
  destruct (Z.leb_spec (Z.of_nat sent) m) as [Ha|Ha].
  - destruct (net sent) as [response|e] eqn:En.
    + destruct (retryable response) eqn:Er.
      * destruct (Z.eqb_spec (Z.of_nat sent) m) as [Eam|Eam].
        -- injection H as <-. exists sent. rewrite En.
           repeat split; try assumption; try lia.
        -- rewrite <- backoff_S in H.
           replace (Z.of_nat sent + 1) with (Z.of_nat (S sent)) in H by lia.
           apply IH in H; [|].
           ++ destruct H as (j & Hj & -> & Hk & Hm).
              exists j. repeat split; try assumption; lia.
           ++ intros k Hk.
              destruct (Nat.eq_dec k sent) as [->|Hne].
              ** now exists response.
              ** apply Hprev. lia.
      * injection H as <-. exists sent. rewrite En.
        repeat split; try assumption; try lia.
        intros resp [= <-] Hr. congruence.
    + injection H as <-. exists sent. rewrite En.
      repeat split; try assumption; try lia.
      intros resp [=].
  - injection H as <-. exists sent.
    repeat split; try assumption; try lia.
Qed.

(** C3.  Every call of the fetcher returns, and in its run: each retry was
    made after a response of status 429 or 500 to 599; the requests sent
    are one more than the retries; and when the first response has any
    other status it is returned at once, after one request and no delay. *)
Theorem fetchWithRetry_retries_only_transient
    (net : nat -> Outcome Response) (maxRetries : Z) :
  exists r,
    fetchWithRetry net maxRetries = Some r /\
    (forall k, (k < List.length (delays r))%nat ->
       exists resp, net k = Ok resp /\
                    (status resp = 429 \/ 500 <= status resp <= 599)) /\
    calls r = S (List.length (delays r)) /\
    result r = net (List.length (delays r)) /\
    (forall resp,
        net 0%nat = Ok resp ->
        ~ (status resp = 429 \/ 500 <= status resp <= 599) ->
        r = {| result := Ok resp; delays := []; calls := 1 |}).
Proof.
  destruct (retryLoop_total (Z.to_nat (maxRetries + 1) + 1) net maxRetries 0
              0%nat []) as [r Hr]; [lia|].
  exists r. split; [exact Hr|].
  unfold fetchWithRetry in *.
  pose proof (retryLoop_spec _ net maxRetries 0%nat r Hr) as H.
  destruct H as (j & _ & -> & Hk & _); [intros k Hk; lia|].
  cbn [delays calls result]. rewrite length_backoff.
  split; [|split; [reflexivity|split; [reflexivity|]]].
  - intros k Hlt. destruct (Hk k Hlt) as (resp & E & R).
    exists resp. split; [assumption|]. now apply retryable_iff.
  - intros resp E Hn.
    destruct j as [|j]; [now rewrite E|].
    destruct (Hk 0%nat ltac:(lia)) as (resp' & E' & R).
    rewrite E in E'. injection E' as <-.
    apply retryable_iff in R. contradiction.
Qed.

Lemma fetchWithRetry_retries_only_transient_witness :
  fetchWithRetry (fun _ => Ok {| status := 404; bodyText := js "Not Found" |}) 3
  = Some {| result := Ok {| status := 404; bodyText := js "Not Found" |};
            delays := []; calls := 1 |}.
Proof.
  destruct (fetchWithRetry_retries_only_transient
              (fun _ => Ok {| status := 404; bodyText := js "Not Found" |}) 3)
    as (r & -> & _ & _ & _ & H).
  f_equal. apply H; [reflexivity|simpl; lia].
Defined.

(** C4.  With [maxRetries = 3] and every response of status 500, the
    fetcher sends four requests, sleeps 2000, 4000 and 8000 ms between
    them, and returns the fourth response as a value. *)
Theorem fetchWithRetry_exhausted (net : nat -> Outcome Response) :
  (forall k, (k <= 3)%nat -> exists resp, net k = Ok resp /\ status resp = 500) ->
  exists last,
    net 3%nat = Ok last /\ status last = 500 /\
    fetchWithRetry net 3
    = Some {| result := Ok last; delays := [2000; 4000; 8000]; calls := 4 |} /\
    [2000; 4000; 8000] = [2 ^ 0 * 2000; 2 ^ 1 * 2000; 2 ^ 2 * 2000].
Proof.
  intros H.
  destruct (H 0%nat ltac:(lia)) as (r0 & E0 & S0).
  destruct (H 1%nat ltac:(lia)) as (r1 & E1 & S1).
  destruct (H 2%nat ltac:(lia)) as (r2 & E2 & S2).
  destruct (H 3%nat ltac:(lia)) as (r3 & E3 & S3).
  exists r3. split; [assumption|]. split; [assumption|]. split; [|reflexivity].
  unfold fetchWithRetry.
  change (Z.to_nat (3 + 1) + 1)%nat with 5%nat.
  cbn [retryLoop]. unfold retryable.
  rewrite E0, S0. cbn. rewrite E1, S1. cbn. rewrite E2, S2. cbn.
  rewrite E3, S3. cbn. reflexivity.
Qed.

Lemma fetchWithRetry_exhausted_witness :
  fetchWithRetry (fun _ => Ok {| status := 500; bodyText := [] |}) 3
  = Some {| result := Ok {| status := 500; bodyText := [] |};
            delays := [2000; 4000; 8000]; calls := 4 |}.
Proof.
  destruct (fetchWithRetry_exhausted
              (fun _ => Ok {| status := 500; bodyText := [] |}))
    as (last & E & _ & -> & _).
  - intros k _. eexists. split; reflexivity.
  - now injection E as <-.
Defined.

(** ** Routing *)

Lemma jsstring_eqb_eq (a b : jsstring) : jsstring_eqb a b = true <-> a = b.
Proof.
  revert b; induction a as [|x a IH]; intros [|y b]; simpl;
    try (split; [discriminate|discriminate]); [tauto|].
  rewrite andb_true_iff, N.eqb_eq, IH.
  split; [intros [-> ->]; reflexivity|intros [= -> ->]; now split].
Qed.

(** The routing decision on any payload value: an image model goes to the
    image lane whatever the payload is; for another model the payload is
    read, which throws on [null] and [undefined]. *)
Lemma route_any (model : jsstring) (payload : JsVal) :
  route model payload =
  if includes (js "image") model then Ok ImageLane
  else if isNullish payload then Throw TypeError
  else Ok (if truthy (optProp (optProp payload (js "generationConfig"))
                        (js "imageConfig"))
           then ImageLane else TextLane).
Proof.
  unfold route, isImageTask.
  destruct (includes (js "image") model); [reflexivity|].
  destruct payload as [| | | | | |fields]; try reflexivity.
  simpl. now destruct (lookup (js "generationConfig") fields).
Qed.

(** C5.  A dispatch goes to the image lane exactly when the model
    identifier contains [image] or the payload carries an image
    configuration block, and to the text lane otherwise; the image lane
    runs one task at a time and the text lane ten. *)
Theorem route_image_iff (model : jsstring) (p : Payload) :
  (route model (payloadValue p) = Ok ImageLane <->
   (exists a b, model = a ++ js "image" ++ b) \/
   (exists g c, generationConfig p = Some g /\ imageConfig g = Some c)) /\
  (route model (payloadValue p) <> Ok ImageLane ->
   route model (payloadValue p) = Ok TextLane) /\
  maxConcurrency (laneQueue ImageLane) = 1 /\
  maxConcurrency (laneQueue TextLane) = 10.
Proof.
  rewrite route_any, <- includes_spec.
  assert (truthy (optProp (optProp (payloadValue p) (js "generationConfig"))
                    (js "imageConfig")) = true <->
          exists g c, generationConfig p = Some g /\ imageConfig g = Some c) as T.
  { destruct p as [cs [[[c|]]|]]; cbn.
    - split; [intros _; eexists; eexists; split; reflexivity|reflexivity].
    - split; [discriminate|intros (g & c & [= <-] & [=])].
    - split; [discriminate|intros (g & c & [=] & _)]. }
  destruct (includes (js "image") model).
  - repeat split; try reflexivity; [now left|congruence].
  - change (isNullish (payloadValue p)) with false. cbv iota.
    destruct (truthy _).
    + repeat split; try reflexivity; [right; now apply T|congruence].
    + repeat split; try reflexivity.
      * discriminate.
      * intros [H|H]; [discriminate|]. apply T in H. discriminate.
Qed.

Lemma route_image_iff_witness :
  route (js "gemini-3-flash-preview")
        (payloadValue {| contents := JArr []; generationConfig := None |})
  = Ok TextLane /\
  route (js "gemini-3-pro-image-preview")
        (payloadValue {| contents := JArr []; generationConfig := None |})
  = Ok ImageLane.
Proof.
  split.
  - apply (route_image_iff (js "gemini-3-flash-preview")
             {| contents := JArr []; generationConfig := None |}).
    vm_compute. discriminate.
  - apply (route_image_iff (js "gemini-3-pro-image-preview")
             {| contents := JArr []; generationConfig := None |}).
    left. exists (js "gemini-3-pro-"), (js "-preview"). reflexivity.
Defined.

(** ** Configuration *)

(** C8.  [getConfig] returns a value whatever is stored and whatever the
    parser does with it; stored text that does not parse gives what an
    absent entry gives, the built-in configuration, which holds a default
    for the host, the key and the two model identifiers. *)
Theorem getConfig_never_throws (JSON_parse : jsstring -> Outcome JsVal)
    (saved : option jsstring) :
  (exists v, getConfig JSON_parse saved = Ok v) /\
  getConfig JSON_parse None = Ok builtinConfig /\
  (forall s e, saved = Some s -> JSON_parse s = Throw e ->
               getConfig JSON_parse saved = getConfig JSON_parse None) /\
  optProp builtinConfig (js "apiHost") = JStr (js "") /\
  optProp builtinConfig (js "apiKey") = JStr (js "") /\
  optProp builtinConfig (js "textModel") = JStr (js "gemini-3-flash-preview") /\
  optProp builtinConfig (js "imageModel") = JStr (js "gemini-3-pro-image-preview").
Proof.
  split; [|split; [reflexivity|split; [|repeat split]]].
  - destruct saved as [s|]; simpl; [|eexists; reflexivity].
    destruct (negb (isEmpty s)); [|eexists; reflexivity].
    destruct (JSON_parse s); simpl; eexists; reflexivity.
  - intros s e -> E. simpl.
    destruct (negb (isEmpty s)); [|reflexivity].
    now rewrite E.
Qed.

Lemma getConfig_never_throws_witness :
  getConfig (fun _ => Throw SyntaxError) (Some (js "{apiHost:"))
  = getConfig (fun _ => Throw SyntaxError) None.
Proof.
  apply (getConfig_never_throws (fun _ => Throw SyntaxError)
           (Some (js "{apiHost:")))
    with (s := js "{apiHost:") (e := SyntaxError); reflexivity.
Defined.

(** ** Response decoding *)

Lemma candidateParts_response (r : ApiResponse) :
  candidateParts (responseValue r)
  = Ok (JArr (List.map partValue (firstCandidateParts r))).
Proof.
  destruct r as [[[|[[[[l|]]|]] cs]|]]; reflexivity.
Qed.

Lemma scanParts_no_inlineData (base64ToBlobUrl : JsVal -> Outcome jsstring)
    (l : list Part) :
  (forall p, In p l -> inlineData p = None) ->
  scanParts base64ToBlobUrl (List.map partValue l) = Ok JUndefined.
Proof.
  induction l as [|p l IH]; intros H; [reflexivity|].
  cbn [List.map scanParts].
  assert (inlineData p = None) as Hp by (apply H; now left).
  destruct p as [[t|] i]; simpl in Hp; subst i; cbn;
    apply IH; intros q Hq; apply H; now right.
Qed.

Lemma firstCandidateParts_allParts (r : ApiResponse) (p : Part) :
  In p (firstCandidateParts r) -> In p (allParts r).
Proof.
  destruct r as [[[|[[[[l|]]|]] cs]|]]; simpl; try contradiction.
  intros H. apply in_or_app. now left.
Qed.

(** A response none of whose first candidate's parts holds [inlineData]
    decodes to [undefined]. *)
Lemma imageFromResponse_absent (base64ToBlobUrl : JsVal -> Outcome jsstring)
    (r : ApiResponse) :
  (forall p, In p (firstCandidateParts r) -> inlineData p = None) ->
  imageFromResponse base64ToBlobUrl (Ok (responseValue r)) = Ok JUndefined.
Proof.
  intros H. unfold imageFromResponse. cbn [bind].
  rewrite candidateParts_response. cbn [bind iterate].
  now apply scanParts_no_inlineData.
Qed.

(** C7.  When no part of a successful response holds [inlineData], each of
    the three image operations returns [undefined]; none throws, whatever
    the platform's decoder would do. *)
Theorem image_operations_absent (base64ToBlobUrl : JsVal -> Outcome jsstring)
    (r : ApiResponse) :
  (forall p, In p (allParts r) -> inlineData p = None) ->
  generateStoryboardFrame base64ToBlobUrl (Ok (responseValue r)) = Ok JUndefined /\
  editFrame base64ToBlobUrl (Ok (responseValue r)) = Ok JUndefined /\
  refineImageClarity base64ToBlobUrl (Ok (responseValue r)) = Ok JUndefined.
Proof.
  intros H.
  assert (forall p, In p (firstCandidateParts r) -> inlineData p = None) as H1
      by (intros p Hp; now apply H, firstCandidateParts_allParts).
  unfold generateStoryboardFrame, editFrame, refineImageClarity.
  now rewrite (imageFromResponse_absent _ _ H1).
Qed.

Lemma image_operations_absent_witness :
  editFrame (fun _ => Throw InvalidCharacterError)
    (Ok (responseValue
           {| candidates :=
                Some [ {| content :=
                            Some {| parts :=
                                      Some [ {| text := Some (js "I cannot draw that.");
                                                inlineData := None |} ] |} |} ] |}))
  = Ok JUndefined.
Proof.
  apply (image_operations_absent (fun _ => Throw InvalidCharacterError)
           {| candidates :=
                Some [ {| content :=
                            Some {| parts :=
                                      Some [ {| text := Some (js "I cannot draw that.");
                                                inlineData := None |} ] |} |} ] |}).
  simpl. intros p [<-|[]]. reflexivity.
Defined.

(** With an image part in the response the decoder is reached. *)
Example editFrame_image :
  editFrame (fun _ => Ok (js "blob:1")) (Ok (responseValue imageThenText))
  = Ok (JStr (js "blob:1")).
Proof. reflexivity. Qed.

(** C9, as amended.  The text decoder returns the text of the first part of
    the first candidate when that part has a text and the text is not
    empty, and the placeholder otherwise. *)
Theorem analyzeAsset_first_part (r : ApiResponse) :
  analyzeAsset (Ok (responseValue r))
  = Ok (JStr match firstCandidateParts r with
             | p :: _ =>
                 match text p with
                 | Some t => if isEmpty t then placeholder else t
                 | None => placeholder
                 end
             | [] => placeholder
             end).
Proof.
  destruct r as [[[|[[[[[|[[t|] i] l]|]]|]] cs]|]]; try reflexivity.
  - destruct t; reflexivity.
  - destruct i; reflexivity.
Qed.

(** C9, as stated, fails on a response whose first part is an image and
    whose second part is a text: a text part is present, and the decoder
    returns the placeholder. *)
Lemma analyzeAsset_skips_later_text :
  firstTextPart imageThenText = js "a red barn at dusk" /\
  analyzeAsset (Ok (responseValue imageThenText)) = Ok (JStr placeholder) /\
  analyzeAsset (Ok (responseValue imageThenText))
    <> Ok (JStr (firstTextPart imageThenText)).
Proof.
  split; [reflexivity|]. split; [reflexivity|].
  vm_compute. discriminate.
Qed.

(** * Further properties of the service *)

(** ** Base-URL normalization, continued *)

Lemma dropWhileEnd_fixed (p : codeunit -> bool) (s : jsstring) :
  (forall t c, s = t ++ [c] -> p c = false) -> dropWhileEnd p s = s.
Proof.
  induction s as [|c r IH]; intros H; [reflexivity|].
  cbn [dropWhileEnd]. rewrite IH.
  - destruct r; [|reflexivity].
    now rewrite (H [] c eq_refl).
  - intros t d ->. apply (H (c :: t) d). reflexivity.
Qed.

Lemma dropWhile_fixed (p : codeunit -> bool) (s : jsstring) :
  (forall c t, s = c :: t -> p c = false) -> dropWhile p s = s.
Proof.
  destruct s as [|c t]; intros H; [reflexivity|].
  simpl. now rewrite (H c t eq_refl).
Qed.

Lemma trim_idempotent (s : jsstring) : trim (trim s) = trim s.
Proof.
  destruct (trim_ends s) as [Hh Hl].
  unfold trim at 1.
  rewrite dropWhile_fixed by exact Hh.
  now apply dropWhileEnd_fixed.
Qed.

(** X1.  What [normalizeBaseUrl] returns is never empty and never ends
    with a slash, so the path [geminiRequest] appends to it always follows
    a single slash. *)
Theorem normalizeBaseUrl_no_trailing_slash (host : jsstring) :
  normalizeBaseUrl host <> [] /\
  forall t c, normalizeBaseUrl host = t ++ [c] -> isSlash c = false.
Proof.
  unfold normalizeBaseUrl.
  destruct (replaceTrailingSlashes_split (trim host)) as (n & _ & Hlast).
  destruct (replaceTrailingSlashes (trim host)) as [|a u] eqn:E.
  - cbn [isEmpty]. split; [discriminate|].
    intros t c H.
    assert (last defaultOrigin 0%N = c) as L by (rewrite H; apply last_last).
    vm_compute in L. now subst c.
  - cbn [isEmpty].
    destruct (startsWith (js "/") (a :: u)); [split; [discriminate|exact Hlast]|].
    destruct (hasHttpScheme (a :: u)); cbn [negb];
      [split; [discriminate|exact Hlast]|].
    split; [discriminate|].
    intros t c H.
    destruct (exists_last (l := a :: u) ltac:(discriminate)) as (v & d & Hv).
    rewrite Hv, app_assoc in H.
    apply app_inj_tail in H as [_ ->].
    now apply (Hlast v).
Qed.

Lemma normalizeBaseUrl_no_trailing_slash_witness :
  normalizeBaseUrl (js "example.com/") = js "https://example.co" ++ [109%N] /\
  isSlash 109%N = false.
Proof.
  split; [reflexivity|].
  apply (proj2 (normalizeBaseUrl_no_trailing_slash (js "example.com/"))
           (js "https://example.co") 109%N).
  reflexivity.
Defined.

(** X2.  What [normalizeBaseUrl] returns is a path that begins with a
    slash or an address with an http or https scheme. *)
Theorem normalizeBaseUrl_relative_or_absolute (host : jsstring) :
  startsWith (js "/") (normalizeBaseUrl host) = true \/
  hasHttpScheme (normalizeBaseUrl host) = true.
Proof.
  unfold normalizeBaseUrl.
  destruct (replaceTrailingSlashes (trim host)) as [|a u] eqn:E.
  - right. reflexivity.
  - cbn [isEmpty].
    destruct (startsWith (js "/") (a :: u)) eqn:Es; [now left|].
    destruct (hasHttpScheme (a :: u)) eqn:Eh; cbn [negb]; right;
      [assumption|reflexivity].
Qed.

(** X3.  White space around the host does not count: trimming the host
    first, as the settings dialog does before it stores it, gives the same
    base URL. *)
Theorem normalizeBaseUrl_trim (host : jsstring) :
  normalizeBaseUrl (trim host) = normalizeBaseUrl host.
Proof.
  unfold normalizeBaseUrl. now rewrite trim_idempotent.
Qed.

(** ** The backoff fetcher, continued *)

Lemma retryLoop_retries_bound (fuel : nat) (net : nat -> Outcome Response)
    (m a : Z) (sent : nat) (slept : list Z) (r : FetchRun) :
  retryLoop fuel net m a sent slept = Some r ->
  Z.of_nat (List.length (delays r))
  <= Z.of_nat (List.length slept) + Z.max 0 (m - a).
Proof.
  revert a sent slept.
  induction fuel as [|fuel IH]; intros a sent slept H; [discriminate|].
  cbn [retryLoop] in H.
  destruct (Z.leb_spec a m) as [Ha|Ha].
  - destruct (net sent) as [response|e];
      [|injection H as <-; cbn [delays]; lia].
    destruct (retryable response); [|injection H as <-; cbn [delays]; lia].
    destruct (Z.eqb_spec a m) as [Eam|Eam]; [injection H as <-; cbn [delays]; lia|].
    apply IH in H. rewrite length_app in H. simpl in H. lia.
  - injection H as <-. cbn [delays]. lia.
Qed.



Lemma fetchWithRetry_shape (net : nat -> Outcome Response) (m : Z) (r : FetchRun) :
  fetchWithRetry net m = Some r ->
  exists j,
    r = {| result := net j; delays := backoff j; calls := S j |} /\
    (forall k, (k < j)%nat ->
               exists resp, net k = Ok resp /\ retryable resp = true) /\
    (forall resp, net j = Ok resp -> retryable resp = true -> m <= Z.of_nat j) /\
    Z.of_nat j <= Z.max 0 m.
Proof.
  intros H.
  pose proof (retryLoop_retries_bound _ _ _ _ _ _ _ H) as Hb.
  apply (retryLoop_spec _ net m 0%nat r) in H; [|intros k Hk; lia].
  destruct H as (j & _ & -> & Hk & Hm).
  exists j. repeat split; try assumption.
  cbn [delays] in Hb. rewrite length_backoff in Hb. simpl in Hb. lia.
Qed.



(** X5.  When the first [j <= maxRetries] responses are retryable and the
    next request fails on the network or is answered with another status,
    the call hands back that failure or response, after [j] retries with
    the delays [2000 * 2 ^ k]. *)
Theorem fetchWithRetry_recovers (net : nat -> Outcome Response) (maxRetries : Z)
    (j : nat) :
  Z.of_nat j <= maxRetries ->
  (forall k, (k < j)%nat -> exists resp, net k = Ok resp /\ retryable resp = true) ->
  (forall resp, net j = Ok resp -> retryable resp = false) ->
  fetchWithRetry net maxRetries
  = Some {| result := net j; delays := backoff j; calls := S j |}.
Proof.
  intros Hj Hbefore Hat.
  destruct (retryLoop_total (Z.to_nat (maxRetries + 1) + 1) net maxRetries 0
              0%nat []) as [r Hr]; [lia|].
  fold (fetchWithRetry net maxRetries) in Hr. rewrite Hr. f_equal.
  destruct (fetchWithRetry_shape _ _ _ Hr) as (i & -> & Hk & Hm & _).
  destruct (Nat.lt_trichotomy i j) as [Hlt|[->|Hgt]]; [|reflexivity|].
  - destruct (Hbefore i Hlt) as (resp & E & R).
    pose proof (Hm resp E R). lia.
  - destruct (Hk j Hgt) as (resp & E & R).
    rewrite (Hat resp E) in R. discriminate.
Qed.

Lemma fetchWithRetry_recovers_witness :
  fetchWithRetry
    (fun k => match k with
              | 0%nat => Ok {| status := 503; bodyText := [] |}
              | 1%nat => Ok {| status := 429; bodyText := [] |}
              | _ => Ok {| status := 200; bodyText := js "{}" |}
              end) 3
  = Some {| result := Ok {| status := 200; bodyText := js "{}" |};
            delays := [2000; 4000]; calls := 3 |}.
Proof.
  apply (fetchWithRetry_recovers
           (fun k => match k with
                     | 0%nat => Ok {| status := 503; bodyText := [] |}
                     | 1%nat => Ok {| status := 429; bodyText := [] |}
                     | _ => Ok {| status := 200; bodyText := js "{}" |}
                     end) 3 2).
  - lia.
  - intros [|[|k]] Hk; [eexists; split; reflexivity|eexists; split; reflexivity|lia].
  - intros resp [= <-]. reflexivity.
Defined.

(** ** The bounded task queue, continued *)

Lemma run_app (q q1 q2 : RequestQueue) (e1 e2 : list Event) (o1 o2 : list Obs) :
  run q e1 = Some (q1, o1) -> run q1 e2 = Some (q2, o2) ->
  run q (e1 ++ e2) = Some (q2, o1 ++ o2).
Proof.
  revert q o1. induction e1 as [|e e1 IH]; intros q o1 H1 H2.
  - simpl in H1. injection H1 as <- <-. exact H2.
  - cbn [run app] in *.
    destruct (step q e) as [[qa oa]|]; [|discriminate].
    destruct (run qa e1) as [[qb ob]|] eqn:Er; [|discriminate].
    injection H1 as <- <-.
    rewrite (IH _ _ Er H2). now rewrite app_assoc.
Qed.

Lemma submitted_app (a b : list Event) :
  submitted (a ++ b) = submitted a ++ submitted b.
Proof.
  induction a as [|[t|t] a IH]; simpl; [reflexivity| |assumption].
  now rewrite IH.
Qed.

Lemma finished_app (a b : list Obs) :
  finished (a ++ b) = finished a ++ finished b.
Proof.
  induction a as [|[t|t] a IH]; simpl; [reflexivity|assumption|].
  now rewrite IH.
Qed.

Lemma removeFirst_perm (t : Task) (l : list Task) :
  memTask t l = true -> Permutation l (t :: removeFirst t l).
Proof.
  induction l as [|x l IH]; simpl; [discriminate|].
  destruct (Nat.eqb_spec x t) as [->|Hne]; simpl; intros H.
  - reflexivity.
  - rewrite (IH H) at 1. apply perm_swap.
Qed.

Lemma step_conservation (q q' : RequestQueue) (e : Event) (o : list Obs) :
  step q e = Some (q', o) ->
  Permutation (awaiting q ++ queue q ++ submitted [e])
              (finished o ++ awaiting q' ++ queue q').
Proof.
  destruct e as [t|t]; simpl; intros H.
  - injection H as H. unfold add in H.
    destruct (process_cases (push t q)) as [[E _]|(t0 & rest & Hq & _ & E)];
      rewrite E in H; injection H as <- <-; simpl in *.
    + reflexivity.
    + now rewrite Hq, <- app_assoc.
  - destruct (memTask t (awaiting q)) eqn:Hin; [|discriminate].
    injection H as H. unfold settle in H.
    pose proof (removeFirst_perm _ _ Hin) as P.
    destruct (process_cases (release t q)) as [[E _]|(t0 & rest & Hq & _ & E)];
      rewrite E in H; injection H as <- <-; simpl in *.
    + rewrite app_nil_r. now rewrite P at 1.
    + rewrite app_nil_r, Hq, <- app_assoc. simpl. now rewrite P at 1.
Qed.

Lemma run_conservation (evs : list Event) (q q' : RequestQueue) (obs : list Obs) :
  run q evs = Some (q', obs) ->
  Permutation (awaiting q ++ queue q ++ submitted evs)
              (finished obs ++ awaiting q' ++ queue q').
Proof.
  revert q obs. induction evs as [|e evs IH]; intros q obs H.
  - simpl in H. injection H as <- <-. simpl. now rewrite app_nil_r.
  - cbn [run] in H.
    destruct (step q e) as [[q1 o]|] eqn:Es; [|discriminate].
    destruct (run q1 evs) as [[q2 o']|] eqn:Er; [|discriminate].
    injection H as <- <-.
    rewrite submitted_cons, finished_app.
    rewrite <- app_assoc, <- (IH _ _ Er).
    rewrite !app_assoc. apply Permutation_app_tail.
    rewrite <- !app_assoc. apply (step_conservation _ _ _ _ Es).
Qed.

(** X6.  No task is lost and none runs twice: at any time the tasks
    submitted are, each as often as it was submitted, the finished ones,
    those in flight and those pending; and the tasks started are the
    finished ones and those in flight. *)
Theorem queue_conservation (n : Z) (evs : list Event) (q : RequestQueue)
    (obs : list Obs) :
  run (newRequestQueue n) evs = Some (q, obs) ->
  Permutation (submitted evs) (finished obs ++ awaiting q ++ queue q) /\
  Permutation (started obs) (finished obs ++ awaiting q).
Proof.
  intros H.
  pose proof (run_conservation _ _ _ _ H) as P. simpl in P.
  split; [exact P|].
  pose proof (run_fifo _ _ _ _ H) as F. simpl in F.
  rewrite <- F, !app_assoc in P.
  now apply Permutation_app_inv_r in P.
Qed.

Lemma queue_conservation_witness :
  Permutation [1; 2; 3; 4]%nat ([2]%nat ++ [1; 3]%nat ++ [4]%nat).
Proof.
  apply (queue_conservation 2 [Add 1; Add 2; Add 3; Settle 2; Add 4]%nat
           {| queue := [4%nat]; activeCount := 2; maxConcurrency := 2;
              awaiting := [1; 3]%nat |}
           [Started 1; Started 2; Finished 2; Started 3]%nat eq_refl).
Defined.

Lemma settle_measure (t : Task) (q : RequestQueue) :
  memTask t (awaiting q) = true ->
  (S (List.length (awaiting (fst (settle t q))) +
      List.length (queue (fst (settle t q))))
   = List.length (awaiting q) + List.length (queue q))%nat.
Proof.
  intros Hin. pose proof (length_removeFirst _ _ Hin) as L.
  unfold settle.
  destruct (process_cases (release t q)) as [[E _]|(t0 & rest & Hq & _ & E)];
    rewrite E; simpl in *.
  - lia.
  - rewrite Hq, length_app. simpl. lia.
Qed.

Lemma drain_from (n : Z) (k : nat) (q : RequestQueue) :
  1 <= n -> Inv n q ->
  (List.length (awaiting q) + List.length (queue q))%nat = k ->
  exists settles q' obs,
    submitted settles = [] /\
    run q settles = Some (q', obs) /\
    Inv n q' /\ queue q' = [] /\ awaiting q' = [].
Proof.
  intros Hn. revert q. induction k as [|k IH]; intros q HI Hk.
  - exists [], q, [].
    split; [reflexivity|split; [reflexivity|split; [exact HI|split]]].
    + destruct (queue q); [reflexivity|]. rewrite Nat.add_comm in Hk. discriminate.
    + destruct (awaiting q); [reflexivity|discriminate].
  - destruct (awaiting q) as [|t w] eqn:Ea.
    + exfalso. destruct HI as (_ & Hc & _ & Hp).
      rewrite Ea in Hc. simpl in Hc.
      destruct (queue q); [discriminate|].
      assert (activeCount q = n) by (apply Hp; discriminate). lia.
    + assert (memTask t (awaiting q) = true) as Hin
          by (rewrite Ea; simpl; now rewrite Nat.eqb_refl).
      pose proof (settle_measure t q Hin) as M.
      pose proof (Inv_settle n t q HI Hin) as HI'.
      destruct (settle t q) as [q1 o] eqn:Es. simpl in M, HI'.
      destruct (IH q1 HI') as (settles & q' & obs & Hs & Hr & HI2 & Hq & Hw).
      { rewrite Ea in M. simpl in M, Hk. lia. }
      exists (Settle t :: settles), q', (o ++ obs).
      split; [exact Hs|split; [|split; [exact HI2|split; assumption]]].
      cbn [run step]. now rewrite Hin, Es, Hr.
Qed.

(** X7.  The queue drains by itself: from any state a queue of bound at
    least 1 can reach, completions alone (no further call of [add]) bring
    it to rest with nothing pending, nothing in flight and the counter at
    0, every submitted task having finished. *)
Theorem queue_drains (n : Z) (evs : list Event) (q : RequestQueue)
    (obs : list Obs) :
  1 <= n ->
  run (newRequestQueue n) evs = Some (q, obs) ->
  exists settles q' obs',
    submitted settles = [] /\
    run q settles = Some (q', obs') /\
    queue q' = [] /\ awaiting q' = [] /\ activeCount q' = 0 /\
    Permutation (submitted evs) (finished (obs ++ obs')).
Proof.
  intros Hn H.
  pose proof (Inv_run n evs _ _ _ (Inv_new n ltac:(lia)) H) as HI.
  destruct (drain_from n _ q Hn HI eq_refl)
    as (settles & q' & obs' & Hs & Hr & HI' & Hq & Hw).
  exists settles, q', obs'. repeat split; try assumption.
  - destruct HI' as (_ & Hc & _). now rewrite Hw in Hc.
  - pose proof (run_conservation _ _ _ _ (run_app _ _ _ _ _ _ _ H Hr)) as P.
    simpl in P. rewrite submitted_app, Hs, Hq, Hw, !app_nil_r in P. exact P.
Qed.

Lemma queue_drains_witness :
  exists settles q' obs',
    submitted settles = [] /\
    run {| queue := [4%nat]; activeCount := 2; maxConcurrency := 2;
           awaiting := [1; 3]%nat |} settles = Some (q', obs') /\
    queue q' = [] /\ awaiting q' = [] /\ activeCount q' = 0 /\
    Permutation [1; 2; 3; 4]%nat
      (finished ([Started 1; Started 2; Finished 2; Started 3]%nat ++ obs')).
Proof.
  apply (queue_drains 2 [Add 1; Add 2; Add 3; Settle 2; Add 4]%nat
           {| queue := [4%nat]; activeCount := 2; maxConcurrency := 2;
              awaiting := [1; 3]%nat |}
           [Started 1; Started 2; Finished 2; Started 3]%nat);
    [lia|reflexivity].
Defined.

Lemma run_adds_full (ts : list Task) (q : RequestQueue) :
  maxConcurrency q <= activeCount q ->
  run q (List.map Add ts)
  = Some ({| queue := queue q ++ ts;
             activeCount := activeCount q;
             maxConcurrency := maxConcurrency q;
             awaiting := awaiting q |}, []).
Proof.
  revert q. induction ts as [|t ts IH]; intros q Hfull.
  - simpl. rewrite app_nil_r. now destruct q.
  - cbn [List.map run step]. unfold add.
    destruct (process_cases (push t q)) as [[E _]|(t0 & rest & _ & Hlt & _)];
      [|simpl in Hlt; lia].
    rewrite E, (IH (push t q)) by exact Hfull.
    simpl. now rewrite <- app_assoc.
Qed.

Lemma run_adds_free (n : nat) (ts : list Task) (w : list Task) :
  (List.length w <= n)%nat ->
  run {| queue := []; activeCount := Z.of_nat (List.length w);
         maxConcurrency := Z.of_nat n; awaiting := w |} (List.map Add ts)
  = Some ({| queue := skipn (n - List.length w) ts;
             activeCount :=
               Z.of_nat (List.length (w ++ firstn (n - List.length w) ts));
             maxConcurrency := Z.of_nat n;
             awaiting := w ++ firstn (n - List.length w) ts |},
          List.map Started (firstn (n - List.length w) ts)).
Proof.
  revert w. induction ts as [|t ts IH]; intros w Hw.
  - simpl. rewrite skipn_nil, firstn_nil, app_nil_r. reflexivity.
  - destruct (Nat.eq_dec (List.length w) n) as [Hfull|Hfree].
    + rewrite run_adds_full by (simpl; lia).
      replace (n - List.length w)%nat with 0%nat by lia.
      simpl. now rewrite app_nil_r.
    + cbn [List.map run step]. unfold add.
      destruct (process_cases
                  (push t {| queue := []; activeCount := Z.of_nat (List.length w);
                             maxConcurrency := Z.of_nat n; awaiting := w |}))
        as [[_ [Hr|Hr]]|(t0 & rest & Hq & _ & E)];
        [simpl in Hr; lia|discriminate|].
      simpl in Hq. injection Hq as <- <-.
      rewrite E. cbn [activeCount maxConcurrency awaiting push].
      replace (Z.of_nat (List.length w) + 1)
        with (Z.of_nat (List.length (w ++ [t])))
        by (rewrite length_app; simpl; lia).
      rewrite (IH (w ++ [t])) by (rewrite length_app; simpl; lia).
      rewrite length_app. simpl.
      replace (n - List.length w)%nat with (S (n - (List.length w + 1)))%nat by lia.
      cbn [skipn firstn List.map].
      now rewrite <- !app_assoc.
Qed.

(** X8.  A burst on a fresh queue of bound [n]: the first [n] tasks start
    at once, in the order submitted, and the others wait in that order. *)
Theorem queue_burst (n : nat) (ts : list Task) :
  run (newRequestQueue (Z.of_nat n)) (List.map Add ts)
  = Some ({| queue := skipn n ts;
             activeCount := Z.of_nat (List.length (firstn n ts));
             maxConcurrency := Z.of_nat n;
             awaiting := firstn n ts |},
          List.map Started (firstn n ts)).
Proof.
  pose proof (run_adds_free n ts [] ltac:(simpl; lia)) as H.
  simpl in H. rewrite Nat.sub_0_r in H. exact H.
Qed.

Lemma run_never_starts (evs : list Event) (q q' : RequestQueue) (obs : list Obs) :
  maxConcurrency q <= 0 -> activeCount q = 0 -> awaiting q = [] ->
  run q evs = Some (q', obs) ->
  obs = [] /\ queue q' = queue q ++ submitted evs /\ awaiting q' = [] /\
  (forall e, In e evs -> exists t, e = Add t).
Proof.
  revert q obs. induction evs as [|e evs IH]; intros q obs Hm Ha Hw H.
  - simpl in H. injection H as <- <-. rewrite app_nil_r.
    repeat split; try assumption. intros e [].
  - cbn [run] in H. destruct e as [t|t]; cbn [step] in H.
    + unfold add in H.
      destruct (process_cases (push t q)) as [[E _]|(t0 & rest & _ & Hlt & _)];
        [|simpl in Hlt; lia].
      rewrite E in H.
      destruct (run (push t q) evs) as [[q2 o']|] eqn:Er; [|discriminate].
      injection H as <- <-.
      destruct (IH (push t q) _ Hm Ha Hw Er) as (-> & Hq & Hw' & Hadds).
      simpl in Hq. rewrite <- app_assoc in Hq.
      repeat split; try assumption.
      intros e [<-|He]; [now exists t|now apply Hadds].
    + rewrite Hw in H. discriminate.
Qed.

(** X9.  A queue whose bound is 0 or less never starts a task: whatever is
    submitted stays pending in the order submitted, and no completion can
    ever occur. *)
Theorem queue_nonpositive_bound (n : Z) (evs : list Event) (q : RequestQueue)
    (obs : list Obs) :
  n <= 0 ->
  run (newRequestQueue n) evs = Some (q, obs) ->
  obs = [] /\ queue q = submitted evs /\ awaiting q = [] /\
  (forall e, In e evs -> exists t, e = Add t).
Proof.
  intros Hn H.
  apply (run_never_starts evs (newRequestQueue n) q obs Hn eq_refl eq_refl H).
Qed.

Lemma queue_nonpositive_bound_witness :
  run (newRequestQueue 0) [Add 5; Add 6]%nat
  = Some ({| queue := [5; 6]%nat; activeCount := 0; maxConcurrency := 0;
             awaiting := [] |}, []) /\
  [5; 6]%nat = submitted [Add 5; Add 6]%nat.
Proof.
  split; [reflexivity|].
  apply (queue_nonpositive_bound 0 [Add 5; Add 6]%nat
           {| queue := [5; 6]%nat; activeCount := 0; maxConcurrency := 0;
              awaiting := [] |} []); [lia|reflexivity].
Defined.

(** ** The dispatch task *)

Section DispatchProperties.

Variable JSON_parse : jsstring -> Outcome JsVal.
Variable JSON_stringify : JsVal -> jsstring.
Variable ToString : JsVal -> jsstring.
Variable textAfterJson : Response -> Outcome jsstring.

Lemma ok_status (resp : Response) :
  ok resp = true <-> 200 <= status resp <= 299.
Proof.
  unfold ok. rewrite andb_true_iff, !Z.leb_le. tauto.
Qed.

Lemma retryable_not_ok (resp : Response) : retryable resp = true -> ok resp = false.
Proof.
  intros R. apply retryable_iff in R.
  destruct (ok resp) eqn:E; [|reflexivity].
  apply ok_status in E. lia.
Qed.

Lemma handle_not_ok (resp : Response) :
  ok resp = false -> exists t, handleResponse JSON_parse JSON_stringify ToString textAfterJson (Ok resp) = Rejected t.
Proof.
  intros E. unfold handleResponse. rewrite E. cbn [negb].
  destruct (errorDetail _ _ _ resp); eexists; reflexivity.
Qed.

(** X10.  Every dispatch task settles, and it fulfils only with the parsed
    JSON body of a response whose status is 200 to 299, reached after at
    most three retries, each made after a retryable response. *)
Theorem dispatch_fulfils_only_2xx (net : nat -> Outcome Response) :
  exists s,
    geminiRequestTask JSON_parse JSON_stringify ToString textAfterJson net = Some s /\
    forall v, s = Fulfilled v ->
      exists j resp,
        (j <= 3)%nat /\ net j = Ok resp /\
        200 <= status resp <= 299 /\
        JSON_parse (bodyText resp) = Ok v /\
        forall k, (k < j)%nat ->
                  exists r', net k = Ok r' /\ retryable r' = true.
Proof.
  unfold geminiRequestTask.
  destruct (retryLoop_total (Z.to_nat (3 + 1) + 1) net 3 0 0%nat []) as [r Hr];
    [lia|].
  fold (fetchWithRetry net 3) in Hr. rewrite Hr.
  eexists. split; [reflexivity|].
  destruct (fetchWithRetry_shape _ _ _ Hr) as (j & -> & Hk & _ & Hj).
  cbn [result]. intros v Hv.
  destruct (net j) as [resp|e] eqn:En; [|discriminate].
  unfold handleResponse in Hv.
  destruct (ok resp) eqn:Eok; cbn [negb] in Hv.
  - unfold responseJson in Hv.
    destruct (JSON_parse (bodyText resp)) as [w|e] eqn:Ep; [|discriminate].
    injection Hv as ->.
    exists j, resp. repeat split; try assumption; try lia;
      now apply ok_status in Eok.
  - destruct (errorDetail _ _ _ resp); discriminate.
Qed.

Lemma includes_inside (p a m b : jsstring) :
  includes p m = true -> includes p (a ++ m ++ b) = true.
Proof.
  intros H. apply includes_spec in H as (x & y & ->).
  apply includes_spec. exists (a ++ x), (y ++ b).
  now rewrite <- !app_assoc.
Qed.

(** X11.  When the response is not a success and its JSON body carries a
    non-empty string at [error.message], the task throws an [Error] whose
    message is the tag, the status and that string unchanged; so whatever
    the upstream message contains, the thrown message contains too. *)
Theorem dispatch_error_message (resp : Response) (body : JsVal) (m : jsstring) :
  ok resp = false ->
  JSON_parse (bodyText resp) = Ok body ->
  optProp (optProp body (js "error")) (js "message") = JStr m ->
  m <> [] ->
  ToString (JStr m) = m ->
  handleResponse JSON_parse JSON_stringify ToString textAfterJson (Ok resp)
  = Rejected (ErrorWithMessage
                (js "[Gemini API Error] " ++ ToString (JNum (status resp))
                 ++ js ": " ++ m)) /\
  forall phrase,
    includes phrase m = true ->
    includes phrase (js "[Gemini API Error] " ++ ToString (JNum (status resp))
                     ++ js ": " ++ m) = true.
Proof.
  intros Eok Ep Em Hne Hs. split.
  - unfold handleResponse, errorDetail, responseJson, apiErrorMessage.
    rewrite Eok, Ep. cbn [negb bind tryCatch]. rewrite Em.
    unfold orElse. destruct m; [contradiction|]. cbn [truthy isEmpty negb].
    now rewrite Hs.
  - intros phrase H.
    rewrite !app_assoc.
    rewrite <- (app_nil_r m) at 1.
    rewrite <- !app_assoc.
    rewrite (app_assoc (ToString _)), (app_assoc (js "[Gemini API Error] ")).
    now apply includes_inside.
Qed.

(** X12.  A network failure at any attempt rejects the dispatch with that
    very failure; and when the upstream answers all four requests with a
    retryable status, the dispatch rejects and never fulfils. *)
Theorem dispatch_rejects (net : nat -> Outcome Response) (j : nat) :
  (j <= 3)%nat ->
  (forall k, (k < j)%nat -> exists resp, net k = Ok resp /\ retryable resp = true) ->
  (forall e, net j = Throw e -> geminiRequestTask JSON_parse JSON_stringify ToString textAfterJson net = Some (Rejected (NativeError e))) /\
  (forall resp, j = 3%nat -> net j = Ok resp -> retryable resp = true ->
                exists t, geminiRequestTask JSON_parse JSON_stringify ToString textAfterJson net = Some (Rejected t)).
Proof.
  intros Hj Hbefore. split.
  - intros e En. unfold geminiRequestTask.
    rewrite (fetchWithRetry_recovers net 3 j); try assumption; try lia.
    + cbn [result]. now rewrite En.
    + intros resp E. rewrite En in E. discriminate.
  - intros resp -> En R. unfold geminiRequestTask.
    destruct (retryLoop_total (Z.to_nat (3 + 1) + 1) net 3 0 0%nat []) as [r Hr];
      [lia|].
    fold (fetchWithRetry net 3) in Hr. rewrite Hr.
    destruct (fetchWithRetry_shape _ _ _ Hr) as (i & -> & Hk & Hm & Hi).
    cbn [result].
    assert (i = 3%nat) as ->.
    { destruct (Nat.eq_dec i 3) as [|Hne]; [assumption|].
      destruct (Hbefore i ltac:(lia)) as (ri & Ei & Ri).
      pose proof (Hm ri Ei Ri). lia. }
    rewrite En.
    destruct (handle_not_ok resp (retryable_not_ok _ R)) as [t Ht].
    exists t. now rewrite Ht.
Qed.

(** X13.  When [checkKeyStatus] reports the direct mode, the configuration
    the dispatcher reads (unless it is [null]) sends the requests to the
    default public origin. *)
Theorem direct_mode_default_origin (saved : option jsstring) (c : JsVal) :
  checkKeyStatus JSON_parse saved = false ->
  getConfig JSON_parse saved = Ok c ->
  isNullish c = false ->
  baseUrlOf c = Ok defaultOrigin.
Proof.
  unfold checkKeyStatus, getConfig.
  destruct saved as [s|]; [|intros _ [= <-] _; reflexivity].
  destruct (truthy (JStr s)); [|intros _ [= <-] _; reflexivity].
  destruct (JSON_parse s) as [cfg|e]; cbn [bind tryCatch];
    [|intros _ [= <-] _; reflexivity].
  intros H [= <-] Hn.
  unfold baseUrlOf.
  destruct (getProp cfg (js "apiHost")) as [h|e] eqn:Eh; cbn [bind] in *.
  - unfold orElse. now rewrite H.
  - destruct cfg; try discriminate.
    simpl in Eh. destruct (lookup (js "apiHost") fields); discriminate.
Qed.

End DispatchProperties.

Lemma dispatch_fulfils_only_2xx_witness :
  exists j resp,
    (j <= 3)%nat /\
    (fun _ : nat => Ok {| status := 200; bodyText := js "null" |}) j = Ok resp /\
    200 <= status resp <= 299 /\
    (fun _ : jsstring => Ok JNull) (bodyText resp) = Ok JNull /\
    forall k, (k < j)%nat ->
      exists r', (fun _ : nat => Ok {| status := 200; bodyText := js "null" |}) k
                 = Ok r' /\ retryable r' = true.
Proof.
  destruct (dispatch_fulfils_only_2xx (fun _ => Ok JNull) (fun _ => js "null")
              (fun _ => js "200") (fun _ => Throw TypeError)
              (fun _ => Ok {| status := 200; bodyText := js "null" |}))
    as (s & Hs & H).
  apply H. vm_compute in Hs. now injection Hs as <-.
Defined.

Lemma dispatch_error_message_witness :
  handleResponse
    (fun _ => Ok (JObj [(js "error",
                         JObj [(js "message",
                                JStr (js "Requested entity was not found."))])]))
    (fun _ => js "{}")
    (fun v => match v with JStr s => s | _ => js "404" end)
    (fun _ => Throw TypeError)
    (Ok {| status := 404; bodyText := js "{...}" |})
  = Rejected (ErrorWithMessage
                (js "[Gemini API Error] 404: Requested entity was not found.")).
Proof.
  apply (dispatch_error_message
           (fun _ => Ok (JObj [(js "error",
                                JObj [(js "message",
                                       JStr (js "Requested entity was not found."))])]))
           (fun _ => js "{}")
           (fun v => match v with JStr s => s | _ => js "404" end)
           (fun _ => Throw TypeError)
           {| status := 404; bodyText := js "{...}" |}
           (JObj [(js "error",
                   JObj [(js "message",
                          JStr (js "Requested entity was not found."))])])
           (js "Requested entity was not found."));
    try reflexivity.
  discriminate.
Defined.

Lemma dispatch_rejects_witness :
  geminiRequestTask (fun _ => Throw SyntaxError) (fun _ => js "{}")
    (fun _ => js "503") (fun _ => Throw TypeError)
    (fun k => match k with
              | 0%nat => Ok {| status := 503; bodyText := [] |}
              | _ => Throw NetworkError
              end)
  = Some (Rejected (NativeError NetworkError)).
Proof.
  apply (dispatch_rejects (fun _ => Throw SyntaxError) (fun _ => js "{}")
           (fun _ => js "503") (fun _ => Throw TypeError)
           (fun k => match k with
                     | 0%nat => Ok {| status := 503; bodyText := [] |}
                     | _ => Throw NetworkError
                     end) 1).
  - lia.
  - intros [|k] Hk; [eexists; split; reflexivity|lia].
  - reflexivity.
Defined.

Lemma direct_mode_default_origin_witness :
  baseUrlOf (JObj [(js "apiKey", JStr (js "k"))]) = Ok defaultOrigin.
Proof.
  apply (direct_mode_default_origin
           (fun _ => Ok (JObj [(js "apiKey", JStr (js "k"))]))
           (Some (js "{..}"))); reflexivity.
Defined.

(** ** The five operations *)

Lemma splitOn_whole (sep : codeunit) (s : jsstring) :
  forallb (fun c => negb (c =? sep)%N) s = true -> splitOn sep s = [s].
Proof.
  induction s as [|c s IH]; simpl; intros H; [reflexivity|].
  apply andb_true_iff in H as [Hc Hs]. apply negb_true_iff in Hc.
  now rewrite Hc, (IH Hs).
Qed.

Lemma splitOn_first (sep : codeunit) (a b : jsstring) :
  forallb (fun c => negb (c =? sep)%N) a = true ->
  splitOn sep (a ++ sep :: b) = a :: splitOn sep b.
Proof.
  induction a as [|c a IH]; simpl; intros H.
  - now rewrite N.eqb_refl.
  - apply andb_true_iff in H as [Hc Ha]. apply negb_true_iff in Hc.
    now rewrite Hc, (IH Ha).
Qed.

(** X14.  [imageUrlToBase64] on a data URL gives back the base64 text that
    follows the comma, without any request; a data URL that has no comma
    gives [undefined]. *)
Theorem imageUrlToBase64_data_url (readAsBase64 : jsstring -> Outcome JsVal)
    (mime b64 : jsstring) :
  noComma mime = true -> noComma b64 = true ->
  imageUrlToBase64 readAsBase64 (js "data:" ++ mime ++ js ";base64," ++ b64)
  = Ok (JStr b64) /\
  imageUrlToBase64 readAsBase64 (js "data:" ++ mime) = Ok JUndefined.
Proof.
  intros Hm Hb. unfold imageUrlToBase64.
  assert (forall x, truthy (JStr (js "data:" ++ x)) = true) as T
      by reflexivity.
  rewrite !T, !startsWith_app. cbn [negb].
  split.
  - replace (js "data:" ++ mime ++ js ";base64," ++ b64)
      with ((js "data:" ++ mime ++ js ";base64") ++ comma :: b64)
      by (rewrite <- !app_assoc; reflexivity).
    rewrite splitOn_first.
    + now rewrite (splitOn_whole _ _ Hb).
    + rewrite !forallb_app.
      apply andb_true_iff; split; [reflexivity|].
      apply andb_true_iff; split; [exact Hm|reflexivity].
  - rewrite splitOn_whole; [reflexivity|].
    rewrite forallb_app.
    apply andb_true_iff; split; [reflexivity|exact Hm].
Qed.

Lemma imageUrlToBase64_data_url_witness :
  imageUrlToBase64 (fun _ => Throw NetworkError)
    (js "data:image/png;base64,iVBORw0KGgo=")
  = Ok (JStr (js "iVBORw0KGgo=")).
Proof.
  apply (imageUrlToBase64_data_url (fun _ => Throw NetworkError)
           (js "image/png") (js "iVBORw0KGgo=")); reflexivity.
Defined.

(** X15.  The requests of [generateStoryboardFrame] and of
    [refineImageClarity] take the image lane whatever the name of the
    model is: their payloads carry an image configuration. *)
Theorem frame_and_refine_take_image_lane (model prompt : jsstring)
    (assetData previousData : list JsVal) (aspectRatio imageSize : JsVal)
    (panelType : jsstring) (isSketchMode imageData : JsVal)
    (targetSize : jsstring) :
  route model (storyboardPayload prompt assetData previousData aspectRatio
                 imageSize panelType isSketchMode) = Ok ImageLane /\
  route model (refinePayload assetData imageData targetSize) = Ok ImageLane.
Proof.
  rewrite !route_any.
  destruct (includes (js "image") model); split; reflexivity.
Qed.

(** X16.  The requests of [editFrame] and of [analyzeAsset] carry no image
    configuration, so the name of the model alone decides their lane; the
    request of [testConnection] always takes the text lane. *)
Theorem plain_requests_lane (model : jsstring) (originalData imageData : JsVal)
    (maskData : option JsVal) (editPrompt : jsstring) :
  route model (editPayload originalData maskData editPrompt)
  = Ok (if includes (js "image") model then ImageLane else TextLane) /\
  route model (analyzePayload imageData)
  = Ok (if includes (js "image") model then ImageLane else TextLane) /\
  route pingModel pingPayload = Ok TextLane.
Proof.
  rewrite !route_any.
  destruct (includes (js "image") model); repeat split; reflexivity.
Qed.

(** ** Response decoding, continued *)

Lemma scanParts_first (base64ToBlobUrl : JsVal -> Outcome jsstring)
    (l : list Part) :
  scanParts base64ToBlobUrl (List.map partValue l)
  = match find usableImage l with
    | Some p =>
        match inlineData p with
        | Some d => u <- base64ToBlobUrl (JStr (data d)) ;; Ok (JStr u)
        | None => Ok JUndefined
        end
    | None => Ok JUndefined
    end.
Proof.
  induction l as [|p l IH]; [reflexivity|].
  cbn [List.map scanParts find].
  destruct p as [[t|] [[d mt]|]]; unfold usableImage; cbn;
    try exact IH; destruct d; cbn; try exact IH; reflexivity.
Qed.

(** X17.  The image operations decode the first part of the first
    candidate whose inline data is not empty, and only that one: the parts
    after it and the other candidates are not looked at, and what the
    platform's decoder does with that one part, a blob URL or an
    exception, is the result. *)
Theorem image_operations_first_image
    (base64ToBlobUrl : JsVal -> Outcome jsstring) (r : ApiResponse) :
  generateStoryboardFrame base64ToBlobUrl (Ok (responseValue r))
  = match find usableImage (firstCandidateParts r) with
    | Some p =>
        match inlineData p with
        | Some d => u <- base64ToBlobUrl (JStr (data d)) ;; Ok (JStr u)
        | None => Ok JUndefined
        end
    | None => Ok JUndefined
    end /\
  editFrame base64ToBlobUrl (Ok (responseValue r))
  = generateStoryboardFrame base64ToBlobUrl (Ok (responseValue r)) /\
  refineImageClarity base64ToBlobUrl (Ok (responseValue r))
  = generateStoryboardFrame base64ToBlobUrl (Ok (responseValue r)).
Proof.
  split; [|split; reflexivity].
  unfold generateStoryboardFrame, imageFromResponse. cbn [bind].
  rewrite candidateParts_response. cbn [bind iterate].
  apply scanParts_first.
Qed.

(** * Properties of the callers *)

(** ** The undo stack of the mask editor *)

Lemma length_sliceLast19 (l : list jsstring) :
  (List.length (Ui.sliceLast19 l) <= 19)%nat /\
  ((List.length l <= 19)%nat -> Ui.sliceLast19 l = l).
Proof.
  unfold Ui.sliceLast19. rewrite length_skipn. split; [lia|].
  intros H. now replace (List.length l - 19)%nat with 0%nat by lia.
Qed.

Lemma length_removelast_le (l : list jsstring) :
  (List.length (removelast l) <= List.length l)%nat.
Proof.
  induction l as [|x [|y l] IH]; simpl in *; lia.
Qed.

Lemma undoStep_bounded (stack : list jsstring) (op : Ui.UndoOp) :
  (List.length stack <= 20)%nat -> (List.length (Ui.undoStep stack op) <= 20)%nat.
Proof.
  intros H. destruct op as [d|]; simpl.
  - unfold Ui.saveToUndo. rewrite length_app. simpl.
    pose proof (proj1 (length_sliceLast19 stack)). lia.
  - unfold Ui.handleUndo. destruct (List.length stack =? 0)%nat; [assumption|].
    pose proof (length_removelast_le stack). lia.
Qed.

(** X18.  The undo stack of the mask editor never holds more than 20
    states; undoing right after a save gives back the state saved and the
    stack as it was, cut to its last 19 states when it was longer. *)
Theorem undo_stack_bounded (ops : list Ui.UndoOp) (data : jsstring)
    (stack : list jsstring) :
  (List.length (fold_left Ui.undoStep ops []) <= 20)%nat /\
  Ui.handleUndo (Ui.saveToUndo data stack) = Some (data, Ui.sliceLast19 stack) /\
  ((List.length stack <= 19)%nat ->
   Ui.handleUndo (Ui.saveToUndo data stack) = Some (data, stack)).
Proof.
  assert (Ui.handleUndo (Ui.saveToUndo data stack)
          = Some (data, Ui.sliceLast19 stack)) as U.
  { unfold Ui.handleUndo, Ui.saveToUndo.
    rewrite length_app, Nat.add_comm. simpl.
    now rewrite last_last, removelast_last. }
  split; [|split; [exact U|]].
  - assert (forall s, (List.length s <= 20)%nat ->
              (List.length (fold_left Ui.undoStep ops s) <= 20)%nat) as G.
    { induction ops as [|op ops IH]; intros s Hs; [assumption|].
      simpl. apply IH. now apply undoStep_bounded. }
    apply G. simpl. lia.
  - intros H. rewrite U. now rewrite (proj2 (length_sliceLast19 stack) H).
Qed.

Lemma undo_stack_bounded_witness :
  Ui.handleUndo (Ui.saveToUndo (js "s2") [js "s1"]) = Some (js "s2", [js "s1"]).
Proof.
  apply (undo_stack_bounded [] (js "s2") [js "s1"]). simpl. lia.
Defined.

(** ** The name of an uploaded asset *)

(** X19.  The name the sidebar gives to an asset has at most 33 code
    units, starts like the description, and is the description itself when
    that has at most 30. *)
Theorem assetName_bounded (description : jsstring) :
  (List.length (Ui.assetName description) <= 33)%nat /\
  firstn 30 (Ui.assetName description) = firstn 30 description /\
  ((List.length description <= 30)%nat -> Ui.assetName description = description).
Proof.
  unfold Ui.assetName.
  pose proof (firstn_le_length 30 description) as L.
  destruct (Nat.ltb_spec 30 (List.length description)) as [H|H].
  - split; [|split; [|lia]].
    { rewrite length_app, length_firstn.
      change (List.length (js "...")) with 3%nat. lia. }
    rewrite firstn_app, firstn_firstn, length_firstn.
    replace (30 - Nat.min 30 (List.length description))%nat with 0%nat by lia.
    simpl. now rewrite app_nil_r.
  - rewrite app_nil_r. repeat rewrite firstn_all2 by lia.
    split; [lia|]. split; [reflexivity|]. intros _. reflexivity.
Qed.

Lemma assetName_bounded_witness :
  Ui.assetName (js "red barn") = js "red barn".
Proof.
  apply (assetName_bounded (js "red barn")). simpl. lia.
Defined.

(** ** The grid of a storyboard node *)

(** X20.  For every panel type, each slice index below [cols * rows] falls
    on a cell inside the grid, and the index is recovered from its row and
    column, so two slices never share a cell. *)
Theorem slice_cell_in_grid (panelType : jsstring) (index : Z) :
  0 <= index < fst (Ui.grid panelType) * snd (Ui.grid panelType) ->
  0 <= Ui.rowIndex index (fst (Ui.grid panelType)) < snd (Ui.grid panelType) /\
  0 <= Ui.colIndex index (fst (Ui.grid panelType)) < fst (Ui.grid panelType) /\
  index = Ui.rowIndex index (fst (Ui.grid panelType)) * fst (Ui.grid panelType)
          + Ui.colIndex index (fst (Ui.grid panelType)).
Proof.
  unfold Ui.grid, Ui.rowIndex, Ui.colIndex.
  repeat match goal with
         | |- context [if ?b then _ else _] => destruct b
         end; cbn [fst snd]; intros H;
    rewrite Z.rem_mod_nonneg by lia;
    Z.to_euclidean_division_equations; lia.
Qed.

Lemma slice_cell_in_grid_witness :
  0 <= Ui.rowIndex 7 3 < 3 /\ 0 <= Ui.colIndex 7 3 < 3 /\
  7 = Ui.rowIndex 7 3 * 3 + Ui.colIndex 7 3.
Proof.
  apply (slice_cell_in_grid (js "9-grid") 7). simpl. lia.
Defined.

(** ** The asset selection of a node *)

Lemma includesId_In (id : jsstring) (l : list jsstring) :
  Ui.includesId id l = true <-> In id l.
Proof.
  unfold Ui.includesId. rewrite existsb_exists. split.
  - intros (x & Hx & E). apply jsstring_eqb_eq in E. now subst.
  - intros H. exists id. split; [assumption|]. now apply jsstring_eqb_eq.
Qed.

Lemma jsstring_eqb_neq (a b : jsstring) : jsstring_eqb a b = false <-> a <> b.
Proof.
  rewrite <- jsstring_eqb_eq. destruct (jsstring_eqb a b); split;
    congruence.
Qed.

(** X21.  Toggling an asset flips its membership in the selection and
    leaves the other assets as they were; it keeps a selection free of
    repetitions so; and toggling twice an asset that was not selected
    gives the selection back. *)
Theorem toggleAsset_flips (assetId : jsstring) (selected : list jsstring) :
  (forall x, In x (Ui.toggleAsset assetId selected) <->
             (x = assetId /\ ~ In assetId selected) \/
             (x <> assetId /\ In x selected)) /\
  (NoDup selected -> NoDup (Ui.toggleAsset assetId selected)) /\
  (~ In assetId selected ->
   Ui.toggleAsset assetId (Ui.toggleAsset assetId selected) = selected).
Proof.
  unfold Ui.toggleAsset at 1 2.
  destruct (Ui.includesId assetId selected) eqn:E.
  - apply includesId_In in E. split; [|split].
    + intros x. rewrite filter_In, negb_true_iff, jsstring_eqb_neq. tauto.
    + intros H. now apply NoDup_filter.
    + intros H. contradiction.
  - assert (~ In assetId selected) as Hn.
    { intros H. apply includesId_In in H. congruence. }
    split; [|split].
    + intros x. rewrite in_app_iff. simpl.
      destruct (list_eq_dec N.eq_dec x assetId) as [->|Hne]; [tauto|].
      split; [intros [H|[H|[]]]; [tauto|congruence]|tauto].
    + intros H. apply NoDup_app; [assumption|constructor; [intros []|constructor]|].
      intros x Hx [<-|[]]. contradiction.
    + intros _. unfold Ui.toggleAsset. rewrite E.
      assert (Ui.includesId assetId (selected ++ [assetId]) = true) as ->.
      { apply includesId_In, in_or_app. right. now left. }
      rewrite filter_app. simpl.
      rewrite (proj2 (jsstring_eqb_eq assetId assetId) eq_refl). simpl.
      rewrite app_nil_r.
      clear E. induction selected as [|y l IH]; [reflexivity|].
      simpl. assert (y <> assetId) as Hy by (intros ->; apply Hn; now left).
      apply jsstring_eqb_neq in Hy. rewrite Hy. simpl. f_equal.
      apply IH. intros H. apply Hn. now right.
Qed.

Lemma toggleAsset_flips_witness :
  Ui.toggleAsset (js "a2") (Ui.toggleAsset (js "a2") [js "a1"]) = [js "a1"].
Proof.
  apply (toggleAsset_flips (js "a2") [js "a1"]).
  intros [H|[]]. discriminate.
Defined.

(** ** The graph of the application shell *)



(** X22.  Deleting a node leaves no node of that identifier and no edge
    that starts or ends at it, keeps every other node and every edge
    between other nodes, and keeps both ends of every edge among the
    nodes. *)
Theorem onDelete_keeps_graph_closed (id : jsstring) (nds : list Ui.StoryNode)
    (eds : list Ui.Edge) :
  Ui.closedGraph nds eds ->
  Ui.closedGraph (Ui.onDeleteNodes id nds) (Ui.onDeleteEdges id eds) /\
  ~ In id (List.map Ui.nodeId (Ui.onDeleteNodes id nds)) /\
  (forall e, In e (Ui.onDeleteEdges id eds) ->
             Ui.source e <> id /\ Ui.target e <> id) /\
  (forall n, In n nds -> Ui.nodeId n <> id -> In n (Ui.onDeleteNodes id nds)) /\
  (forall e, In e eds -> Ui.source e <> id -> Ui.target e <> id ->
             In e (Ui.onDeleteEdges id eds)).
Proof.
  intros Hc.
  assert (forall e, In e (Ui.onDeleteEdges id eds) <->
                    In e eds /\ Ui.source e <> id /\ Ui.target e <> id) as He.
  { intros e. unfold Ui.onDeleteEdges.
    rewrite filter_In, andb_true_iff, !negb_true_iff, !jsstring_eqb_neq. tauto. }
  assert (forall n, In n (Ui.onDeleteNodes id nds) <->
                    In n nds /\ Ui.nodeId n <> id) as Hn.
  { intros n. unfold Ui.onDeleteNodes.
    rewrite filter_In, negb_true_iff, jsstring_eqb_neq. tauto. }
  assert (forall x, In x (List.map Ui.nodeId nds) -> x <> id ->
                    In x (List.map Ui.nodeId (Ui.onDeleteNodes id nds))) as Hk.
  { intros x Hx Hne. apply in_map_iff in Hx as (n & <- & Hin).
    apply in_map. now apply Hn. }
  split; [|split; [|split; [|split]]].
  - intros e H. apply He in H as (Hin & Hs & Ht).
    destruct (Hc e Hin) as [Hs' Ht']. split; now apply Hk.
  - intros H. apply in_map_iff in H as (n & E & Hin).
    apply Hn in Hin as [_ Hne]. contradiction.
  - intros e H. now apply He in H.
  - intros n Hin Hne. now apply Hn.
  - intros e Hin Hs Ht. now apply He.
Qed.

Lemma onDelete_keeps_graph_closed_witness :
  ~ In (js "n1")
      (List.map Ui.nodeId
         (Ui.onDeleteNodes (js "n1")
            [Ui.newNode (js "n1") [] None false;
             Ui.newNode (js "n2") [js "n1"] None false])).
Proof.
  apply (onDelete_keeps_graph_closed (js "n1")
           [Ui.newNode (js "n1") [] None false;
            Ui.newNode (js "n2") [js "n1"] None false]
           [{| Ui.edgeId := js "e-n1-n2"; Ui.source := js "n1";
               Ui.target := js "n2" |}]).
  intros e [<-|[]]. simpl. split; [now left|right; now left].
Defined.



Lemma filter_none {A : Type} (f : A -> bool) (l : list A) :
  (forall x, In x l -> f x = false) -> filter f l = [].
Proof.
  induction l as [|x l IH]; intros H; [reflexivity|].
  simpl. rewrite (H x (or_introl eq_refl)). apply IH.
  intros y Hy. apply H. now right.
Qed.

(** X24.  Every previous frame [handleGenerate] sends along is the
    non-empty image of a node from which an edge leads to the node being
    generated; a node without incoming edge sends none. *)
Theorem previousFrameUrls_from_parents (id : jsstring) (nds : list Ui.StoryNode)
    (eds : list Ui.Edge) :
  (forall u, In u (Ui.previousFrameUrls id nds eds) ->
     u <> [] /\
     exists e p,
       In e eds /\ Ui.target e = id /\
       In p nds /\ Ui.nodeId p = Ui.source e /\ Ui.nodeImageUrl p = Some u) /\
  ((forall e, In e eds -> Ui.target e <> id) ->
   Ui.previousFrameUrls id nds eds = []).
Proof.
  unfold Ui.previousFrameUrls. split.
  - intros u H. apply in_flat_map in H as (e & He & Hu).
    apply filter_In in He as [He Ht]. apply jsstring_eqb_eq in Ht.
    destruct (find _ nds) as [p|] eqn:Ef; [|contradiction].
    apply find_some in Ef as [Hp Hid]. apply jsstring_eqb_eq in Hid.
    destruct (Ui.nodeImageUrl p) as [v|] eqn:Ei; [|contradiction].
    destruct v as [|c v]; [contradiction|].
    destruct Hu as [<-|[]].
    split; [discriminate|]. now exists e, p.
  - intros H. rewrite filter_none; [reflexivity|].
    intros e He. apply jsstring_eqb_neq. now apply H.
Qed.

Lemma previousFrameUrls_from_parents_witness :
  Ui.previousFrameUrls (js "n2") [Ui.newNode (js "n1") [] (Some (js "blob:1")) false]
    [{| Ui.edgeId := js "e-n1-n3"; Ui.source := js "n1"; Ui.target := js "n3" |}]
  = [].
Proof.
  apply (previousFrameUrls_from_parents (js "n2")
           [Ui.newNode (js "n1") [] (Some (js "blob:1")) false]
           [{| Ui.edgeId := js "e-n1-n3"; Ui.source := js "n1";
               Ui.target := js "n3" |}]).
  intros e [<-|[]]. simpl. discriminate.
Defined.

(** ** The settings dialog *)

(** X25.  What the settings dialog saves, read back by [getConfig], makes
    the dispatcher use [normalizeBaseUrl] of the host as it was typed, and
    makes the shell report the proxy mode exactly when the trimmed host is
    not empty; this for any [JSON.parse] and [JSON.stringify] that give the
    saved object back. *)
Theorem settings_round_trip (JSON_parse : jsstring -> Outcome JsVal)
    (JSON_stringify : JsVal -> jsstring)
    (apiHost apiKey : option jsstring) (textModel imageModel : JsVal) :
  JSON_stringify (App.cleanConfig apiHost apiKey textModel imageModel) <> [] ->
  JSON_parse (JSON_stringify (App.cleanConfig apiHost apiKey textModel imageModel))
  = Ok (App.cleanConfig apiHost apiKey textModel imageModel) ->
  getConfig JSON_parse
    (Some (JSON_stringify (App.cleanConfig apiHost apiKey textModel imageModel)))
  = Ok (App.cleanConfig apiHost apiKey textModel imageModel) /\
  baseUrlOf (App.cleanConfig apiHost apiKey textModel imageModel)
  = Ok (normalizeBaseUrl match apiHost with Some h => h | None => js "" end) /\
  checkKeyStatus JSON_parse
    (Some (JSON_stringify (App.cleanConfig apiHost apiKey textModel imageModel)))
  = negb (isEmpty (App.cleanField apiHost)).
Proof.
  intros Hne Hp.
  assert (truthy (JStr (JSON_stringify
                          (App.cleanConfig apiHost apiKey textModel imageModel)))
          = true) as T.
  { simpl. now destruct (JSON_stringify _). }
  split; [|split].
  - unfold getConfig. rewrite T, Hp. reflexivity.
  - assert (App.cleanField apiHost
            = trim match apiHost with Some h => h | None => js "" end) as E.
    { destruct apiHost as [h|]; [|reflexivity]. simpl.
      now destruct (trim h). }
    unfold baseUrlOf.
    change (getProp (App.cleanConfig apiHost apiKey textModel imageModel)
              (js "apiHost"))
      with (Ok (JStr (App.cleanField apiHost))).
    cbn [bind]. unfold orElse. cbn [truthy].
    transitivity (Ok (normalizeBaseUrl (App.cleanField apiHost))).
    + now destruct (App.cleanField apiHost).
    + rewrite E. unfold normalizeBaseUrl. now rewrite trim_idempotent.
  - unfold checkKeyStatus. rewrite T, Hp. reflexivity.
Qed.

Lemma settings_round_trip_witness :
  baseUrlOf (App.cleanConfig (Some (js " example.com/ ")) None JNull JNull)
  = Ok (normalizeBaseUrl (js " example.com/ ")).
Proof.
  apply (settings_round_trip
           (fun _ => Ok (App.cleanConfig (Some (js " example.com/ ")) None
                           JNull JNull))
           (fun _ => js "{}")
           (Some (js " example.com/ ")) None JNull JNull);
    [discriminate|reflexivity].
Defined.

(** ** The generation handlers of the shell *)

Lemma updateNode_ids (id : jsstring) (f : Ui.StoryNode -> Ui.StoryNode)
    (nds : list Ui.StoryNode) :
  (forall n, Ui.nodeId (f n) = Ui.nodeId n) ->
  List.map Ui.nodeId (App.updateNode id f nds) = List.map Ui.nodeId nds.
Proof.
  intros Hf. unfold App.updateNode. rewrite map_map. apply map_ext.
  intros n. destruct (jsstring_eqb (Ui.nodeId n) id); [apply Hf|reflexivity].
Qed.

Lemma updateNode_at (id : jsstring) (f : Ui.StoryNode -> Ui.StoryNode)
    (nds : list Ui.StoryNode) (n : Ui.StoryNode) :
  (forall m, Ui.nodeId (f m) = Ui.nodeId m) ->
  In n (App.updateNode id f nds) -> Ui.nodeId n = id ->
  exists m, In m nds /\ Ui.nodeId m = id /\ n = f m.
Proof.
  intros Hf H Hid. unfold App.updateNode in H.
  apply in_map_iff in H as (m & E & Hin).
  destruct (jsstring_eqb (Ui.nodeId m) id) eqn:Em.
  - apply jsstring_eqb_eq in Em. now exists m.
  - apply jsstring_eqb_neq in Em. subst n. contradiction.
Qed.

(** X26.  [handleGenerate] on a node that does not exist or whose
    description is blank asks for a description and changes no node,
    whatever a generation would have given and without asking for a key. *)
Theorem handleGenerate_refuses_blank (nativeMessage : JsError -> jsstring)
    (ensureApiKey : Outcome unit) (openSelectKey : option (Outcome unit))
    (generate : Settled (option jsstring)) (id : jsstring) (s : App.State) :
  (forall node,
      find (fun n => jsstring_eqb (Ui.nodeId n) id) (App.nodes s) = Some node ->
      trim (Ui.nodeContent node) = []) ->
  App.handleGenerate nativeMessage ensureApiKey openSelectKey generate id s
  = ({| App.nodes := App.nodes s; App.error := Some App.promptMissing |}, None).
Proof.
  intros H. unfold App.handleGenerate.
  destruct (find _ (App.nodes s)) as [node|]; [|reflexivity].
  now rewrite (H node eq_refl).
Qed.

Lemma handleGenerate_refuses_blank_witness :
  App.handleGenerate (fun _ => js "TypeError") (Ok tt) None
    (Fulfilled (Some (js "blob:1"))) (js "n1")
    {| App.nodes := [Ui.newNode (js "n1") [] None false]; App.error := None |}
  = ({| App.nodes := [Ui.newNode (js "n1") [] None false];
        App.error := Some App.promptMissing |}, None).
Proof.
  apply (handleGenerate_refuses_blank (fun _ => js "TypeError") (Ok tt) None
           (Fulfilled (Some (js "blob:1"))) (js "n1")
           {| App.nodes := [Ui.newNode (js "n1") [] None false];
              App.error := None |}).
  intros node [= <-]. reflexivity.
Defined.

(** X27.  When the key selection does not fail, [handleGenerate] on a node
    with a description never leaves the node flagged as generating,
    whether the generation gave an image, gave nothing or failed; it
    keeps the nodes and their order, and it reports an error unless an
    image came back. *)
Theorem handleGenerate_clears_flag (nativeMessage : JsError -> jsstring)
    (openSelectKey : option (Outcome unit))
    (generate : Settled (option jsstring)) (id : jsstring) (s : App.State)
    (node : Ui.StoryNode) :
  find (fun n => jsstring_eqb (Ui.nodeId n) id) (App.nodes s) = Some node ->
  trim (Ui.nodeContent node) <> [] ->
  (forall e, openSelectKey <> Some (Throw e)) ->
  snd (App.handleGenerate nativeMessage (Ok tt) openSelectKey generate id s) = None /\
  List.map Ui.nodeId
    (App.nodes (fst (App.handleGenerate nativeMessage (Ok tt) openSelectKey
                       generate id s)))
  = List.map Ui.nodeId (App.nodes s) /\
  (forall n,
      In n (App.nodes (fst (App.handleGenerate nativeMessage (Ok tt)
                              openSelectKey generate id s))) ->
      Ui.nodeId n = id -> Ui.isGenerating n = false) /\
  (App.error (fst (App.handleGenerate nativeMessage (Ok tt) openSelectKey
                     generate id s)) = None <->
   exists result, generate = Fulfilled (Some result) /\ result <> []).
Proof.
  intros Hf Hc Hk. unfold App.handleGenerate. rewrite Hf.
  destruct (trim (Ui.nodeContent node)) as [|c0 l0] eqn:Et; [contradiction|].
  cbn [isEmpty].
  assert (forall t,
    let r := App.onFailure nativeMessage openSelectKey App.generationFailed id t
               {| App.nodes := App.updateNode id (App.withGenerating true)
                                 (App.nodes s);
                  App.error := None |} in
    snd r = None /\
    List.map Ui.nodeId (App.nodes (fst r)) = List.map Ui.nodeId (App.nodes s) /\
    (forall n, In n (App.nodes (fst r)) -> Ui.nodeId n = id ->
               Ui.isGenerating n = false) /\
    App.error (fst r) <> None) as F.
  { intros t r. subst r. unfold App.onFailure.
    assert (forall b : bool,
              (if b then
                 match openSelectKey with
                 | Some (Throw e) =>
                     ({| App.nodes := App.updateNode id (App.withGenerating true)
                                        (App.nodes s);
                         App.error := None |}, Some e)
                 | _ =>
                     ({| App.nodes :=
                           App.updateNode id (App.withGenerating false)
                             (App.updateNode id (App.withGenerating true)
                                (App.nodes s));
                         App.error :=
                           Some (if isEmpty (App.messageOf nativeMessage t)
                                 then App.generationFailed
                                 else App.messageOf nativeMessage t) |}, None)
                 end
               else
                 ({| App.nodes :=
                       App.updateNode id (App.withGenerating false)
                         (App.updateNode id (App.withGenerating true)
                            (App.nodes s));
                     App.error :=
                       Some (if isEmpty (App.messageOf nativeMessage t)
                             then App.generationFailed
                             else App.messageOf nativeMessage t) |}, None))
              = ({| App.nodes :=
                      App.updateNode id (App.withGenerating false)
                        (App.updateNode id (App.withGenerating true)
                           (App.nodes s));
                    App.error :=
                      Some (if isEmpty (App.messageOf nativeMessage t)
                            then App.generationFailed
                            else App.messageOf nativeMessage t) |}, None)) as E.
    { intros [|]; [|reflexivity].
      destruct openSelectKey as [[u|e]|]; try reflexivity.
      exfalso. now apply (Hk e). }
    cbn [App.nodes App.error]. rewrite E. cbn [fst snd App.nodes App.error].
    split; [reflexivity|]. split; [|split; [|discriminate]].
    - now rewrite !updateNode_ids.
    - intros n Hin Hid.
      apply updateNode_at in Hin as (m & _ & _ & ->); [reflexivity| |assumption].
      reflexivity. }
  destruct generate as [[result|]|t].
  - destruct result as [|ch result]; cbn [isEmpty].
    + destruct (F (ErrorWithMessage App.noImageReturned)) as (A & B & C & D).
      repeat split; try assumption.
      * intros H. contradiction.
      * intros (r & [= <-] & Hr). contradiction.
    + cbn [fst snd App.nodes App.error].
      split; [reflexivity|]. split; [now rewrite !updateNode_ids|]. split.
      * intros n Hin Hid.
        apply updateNode_at in Hin as (m & _ & _ & ->); [reflexivity| |assumption].
        reflexivity.
      * split; [intros _; eexists; split; [reflexivity|discriminate]|reflexivity].
  - destruct (F (ErrorWithMessage App.noImageReturned)) as (A & B & C & D).
    repeat split; try assumption.
    + intros H. contradiction.
    + intros (r & [=] & _).
  - destruct (F t) as (A & B & C & D).
    repeat split; try assumption.
    + intros H. contradiction.
    + intros (r & [=] & _).
Qed.

Lemma handleGenerate_clears_flag_witness :
  snd (App.handleGenerate (fun _ => js "TypeError") (Ok tt) None
         (Fulfilled None) (js "n1")
         {| App.nodes :=
              [{| Ui.nodeId := js "n1"; Ui.parentIds := []; Ui.connectedTo := [];
                  Ui.nodeContent := js "a red barn"; Ui.nodeImageUrl := None;
                  Ui.isGenerating := false; Ui.isSketchMode := false |}];
            App.error := None |}) = None.
Proof.
  eapply (handleGenerate_clears_flag (fun _ => js "TypeError") None
            (Fulfilled None) (js "n1")).
  - reflexivity.
  - discriminate.
  - intros e. discriminate.
Defined.

(** X28.  When [editFrame] settles without an image, [handleEditSave]
    reports no error and leaves the node flagged as generating, with its
    image as it was. *)
Theorem handleEditSave_absent_keeps_flag (nativeMessage : JsError -> jsstring)
    (openSelectKey : option (Outcome unit)) (id imageUrl : jsstring)
    (s : App.State) (node : Ui.StoryNode) :
  id <> [] ->
  find (fun n => jsstring_eqb (Ui.nodeId n) id) (App.nodes s) = Some node ->
  Ui.nodeImageUrl node = Some imageUrl -> imageUrl <> [] ->
  App.handleEditSave nativeMessage (Ok tt) openSelectKey (Fulfilled None)
    (Some id) s
  = ({| App.nodes := App.updateNode id (App.withGenerating true) (App.nodes s);
        App.error := None |}, None) /\
  forall n,
    In n (App.updateNode id (App.withGenerating true) (App.nodes s)) ->
    Ui.nodeId n = id ->
    Ui.isGenerating n = true /\
    exists m, In m (App.nodes s) /\ Ui.nodeImageUrl n = Ui.nodeImageUrl m.
Proof.
  intros Hid Hf Hi Hu. split.
  - unfold App.handleEditSave.
    destruct id; [contradiction|]. cbn [isEmpty]. rewrite Hf, Hi.
    destruct imageUrl; [contradiction|]. reflexivity.
  - intros n Hin Hn.
    apply updateNode_at in Hin as (m & Hm & _ & ->); [|reflexivity|assumption].
    split; [reflexivity|]. now exists m.
Qed.

Lemma handleEditSave_absent_keeps_flag_witness :
  App.handleEditSave (fun _ => js "TypeError") (Ok tt) None (Fulfilled None)
    (Some (js "n1"))
    {| App.nodes := [Ui.newNode (js "n1") [] (Some (js "blob:1")) false];
       App.error := None |}
  = ({| App.nodes :=
          App.updateNode (js "n1") (App.withGenerating true)
            [Ui.newNode (js "n1") [] (Some (js "blob:1")) false];
        App.error := None |}, None).
Proof.
  apply (handleEditSave_absent_keeps_flag (fun _ => js "TypeError") None
           (js "n1") (js "blob:1")
           {| App.nodes := [Ui.newNode (js "n1") [] (Some (js "blob:1")) false];
              App.error := None |}
           (Ui.newNode (js "n1") [] (Some (js "blob:1")) false));
    try reflexivity; discriminate.
Defined.
